(** * Preview server: live-reload broadcast and signaling rendezvous

    A shallow embedding of [Preview.startServer] and [setUpRendezvous]
    (the preview server of the CLI) together with the properties of its
    real-time coordination layer.

    - [JSON]       : the values carried by request bodies and [JSON.stringify];
    - [Rendezvous] : the server-sent-events registry ([connections]), the
                     [sse] middleware and the three signaling routes;
    - [Reload]     : the callback pushed on [watcher.onProcessingComplete];
    - [Startup]    : the control flow of [startServer] as a trace of effects;
    - [Scenario]   : concrete runs the properties are evaluated on. *)

From Stdlib Require Import Ascii String.
From stdpp Require Import base decidable option list gmap strings pretty.

Set Warnings "-register-all".

Local Open Scope string_scope.
Local Open Scope list_scope.
Local Open Scope Z_scope.

(** ** JSON values *)

Module JSON.

(** The characters of the text JavaScript writes for a number. *)
Inductive numchar :=
| D0 | D1 | D2 | D3 | D4 | D5 | D6 | D7 | D8 | D9
| NMinus | NPlus | NDot | NExp.

Definition numchar_ascii (c : numchar) : ascii :=
  match c with
  | D0 => "0" | D1 => "1" | D2 => "2" | D3 => "3" | D4 => "4"
  | D5 => "5" | D6 => "6" | D7 => "7" | D8 => "8" | D9 => "9"
  | NMinus => "-" | NPlus => "+" | NDot => "." | NExp => "e"
  end%char.

Definition number_text (t : list numchar) : string :=
  string_of_list_ascii (map numchar_ascii t).

(** A number that is not an integer written in plain decimal: a finite
    one with a fraction or of magnitude 10^21 or more, given by the text
    [String(x)] writes for it ([0.5], [1e+21], [1.5e-7]), an infinity, or
    [NaN].  The server compares, relays and prints numbers and never
    computes with them, so the text is all it needs. *)
Inductive real :=
| Finite (text : list numchar)
| Infinity (negative : bool)
| NaN.

(** A JavaScript value as [bodyParser.json()] produces it, plus [undefined]
    (the value of an absent property).  A number is a double: [JNum n] is
    the integer [n], which stands for a number of magnitude below 10^21,
    where JavaScript writes an integer in plain decimal ([-0] is [JNum 0]:
    it is falsy and written [0] like [0]); [JReal x] is any other
    number. *)
Inductive jsval :=
| JUndefined
| JNull
| JBool (b : bool)
| JNum (n : Z)
| JStr (s : string)
| JArr (items : list jsval)
| JObj (fields : list (string * jsval))
| JReal (x : real).

(** [o[k]] on a parsed value: the property when [o] is an object holding
    it, [undefined] otherwise. *)
Fixpoint lookup_field (k : string) (fields : list (string * jsval)) : jsval :=
  match fields with
  | [] => JUndefined
  | (k', v) :: rest => if String.eqb k' k then v else lookup_field k rest
  end.

Definition get (k : string) (o : jsval) : jsval :=
  match o with
  | JObj fields => lookup_field k fields
  | _ => JUndefined
  end.

(** [a === b] between a string and an arbitrary value. *)
Definition str_strict_eq (a : string) (b : jsval) : bool :=
  match b with
  | JStr s => String.eqb a s
  | _ => false
  end.

Definition hex_digit (n : N) : ascii :=
  if (n <? 10)%N then ascii_of_N (48 + n) else ascii_of_N (87 + n).

(** QuoteJSONString, character by character. *)
Definition quote_char (c : ascii) : string :=
  let n := N_of_ascii c in
  if (n =? 8)%N then "\b"
  else if (n =? 9)%N then "\t"
  else if (n =? 10)%N then "\n"
  else if (n =? 12)%N then "\f"
  else if (n =? 13)%N then "\r"
  else if (n =? 34)%N then String "\"%char (String "034"%char EmptyString)
  else if (n =? 92)%N then "\\"
  else if (n <? 32)%N then
    "\u00" +:+ String (hex_digit (n / 16)) (String (hex_digit (n mod 16)) EmptyString)
  else String c EmptyString.

Fixpoint quote_body (s : string) : string :=
  match s with
  | EmptyString => EmptyString
  | String c rest => quote_char c +:+ quote_body rest
  end.

Definition dquote : string := String "034"%char EmptyString.

Definition quote (s : string) : string := dquote +:+ quote_body s +:+ dquote.

Fixpoint join (sep : string) (l : list string) : string :=
  match l with
  | [] => EmptyString
  | [x] => x
  | x :: rest => x +:+ sep +:+ join sep rest
  end.

(** [JSON.stringify v]: [None] stands for the result [undefined].  An
    [undefined] property is left out of an object and printed as [null]
    inside an array; a number that is not finite is printed as [null]. *)
Fixpoint stringify (v : jsval) : option string :=
  match v with
  | JUndefined => None
  | JNull => Some "null"
  | JBool true => Some "true"
  | JBool false => Some "false"
  | JNum n => Some (pretty n)
  | JStr s => Some (quote s)
  | JArr items =>
      Some ("[" +:+ join "," (map (fun i => default "null" (stringify i)) items) +:+ "]")
  | JObj fields =>
      let member (kv : string * jsval) : list string :=
        match stringify (snd kv) with
        | Some s => [quote (fst kv) +:+ ":" +:+ s]
        | None => []
        end in
      Some ("{" +:+ join "," (concat (map member fields)) +:+ "}")
  | JReal (Finite text) => Some (number_text text)
  | JReal (Infinity _) | JReal NaN => Some "null"
  end.

(** String concatenation with the result of [JSON.stringify]. *)
Definition to_text (o : option string) : string := default "undefined" o.

End JSON.

(** ** Signaling rendezvous over server-sent events ([setUpRendezvous]) *)

Module Rendezvous.
Import JSON.

(** [{ uuid: req.params.uuid, res: res }].  A response object is
    represented by its allocation number.  The connection object is
    created together with its response, one for one, so that number is
    also the identity [indexOf] compares. *)
Record connection := Connection { uuid : string; res : nat }.

#[global] Instance connection_eq_dec : EqDecision connection.
Proof. solve_decision. Defined.

(** What happens on the event streams, oldest first: the calls of
    [res.writeHead] and [res.write], each [write] with its outcome (it
    returned, or it threw), and the clients that go away.  A chunk whose
    [write] returned reaches the client when the client is still there. *)
Inductive output :=
| WriteHead (r : nat) (status : Z) (headers : list (string * string))
| Write (r : nat) (chunk : string)
| WriteThrew (r : nat) (chunk : string)
| ClientClosed (r : nat).

Record state := State {
  connections : list connection;   (* const connections = [] *)
  intervals : gmap nat Z;          (* live [res.interval] timers, with their delay in ms *)
  wire : list output;              (* every write and close so far, oldest first *)
  next_res : nat                   (* allocation counter of response objects *)
}.

Definition init : state :=
  {| connections := []; intervals := ∅; wire := []; next_res := 0 |}.

(** [connections.indexOf(connection)], for the connection object that
    belongs to response [r]; -1 when it is absent. *)
Fixpoint indexOf_from (l : list connection) (r : nat) (i : Z) : Z :=
  match l with
  | [] => -1
  | c :: rest => if Nat.eqb (res c) r then i else indexOf_from rest r (i + 1)
  end.

Definition indexOf (l : list connection) (r : nat) : Z := indexOf_from l r 0.

(** [l.splice(start, deleteCount)]: the array that is left.  A negative
    [start] counts from the end. *)
Definition splice {A} (start deleteCount : Z) (l : list A) : list A :=
  let len := Z.of_nat (length l) in
  let actualStart := if start <? 0 then Z.max (len + start) 0 else Z.min start len in
  let actualDeleteCount := Z.min (Z.max deleteCount 0) (len - actualStart) in
  take (Z.to_nat actualStart) l ++ drop (Z.to_nat (actualStart + actualDeleteCount)) l.

Definition newline : string := String "010"%char EmptyString.

(** The chunk [res.sseSend(data)] writes. *)
Definition frame (data : jsval) : string :=
  "data: " +:+ to_text (stringify data) +:+ newline +:+ newline.

Section Handlers.

(** Whether [res.write] throws on response [r] during the request (or
    timer callback) being served. *)
Variable throws : nat -> bool.

(** [res.sseSend = data => { try { res.write(...) } catch (e) { ... } }]
    of response [r]. *)
Definition sseSend (r : nat) (data : jsval) (s : state) : state :=
  if throws r then
    {| connections := splice (indexOf (connections s) r) 1 (connections s);
       intervals := delete r (intervals s);
       wire := wire s ++ [WriteThrew r (frame data)];
       next_res := next_res s |}
  else
    {| connections := connections s;
       intervals := intervals s;
       wire := wire s ++ [Write r (frame data)];
       next_res := next_res s |}.

(** [Array.prototype.forEach]: the length is read once, every index below
    it is visited in turn, and an index the array no longer has is
    skipped.  [arr] reads the array out of the loop's state, which the
    callback may change. *)
Fixpoint forEach_loop {A} (arr : A -> list connection)
    (callbackfn : connection -> A -> A) (n : nat) (k : nat) (a : A) : A :=
  match n with
  | O => a
  | S n' =>
      forEach_loop arr callbackfn n' (S k)
        (match arr a !! k with
         | Some c => callbackfn c a
         | None => a
         end)
  end.

Definition forEach {A} (arr : A -> list connection)
    (callbackfn : connection -> A -> A) (a : A) : A :=
  forEach_loop arr callbackfn (length (arr a)) 0%nat a.

Definition sse_headers : list (string * string) :=
  [("Content-Type", "text/event-stream");
   ("Cache-Control", "no-cache");
   ("Connection", "keep-alive")].

Definition ping_packet : jsval := JObj [("type", JStr "ping")].
Definition accept_packet : jsval := JObj [("type", JStr "accept")].

(** The [sse] middleware, up to [next()]. *)
Definition sse (req_uuid : string) (s : state) : connection * state :=
  let r := next_res s in
  let connection := {| uuid := req_uuid; res := r |} in
  (connection,
   {| connections := connections s ++ [connection];
      intervals := <[r := 5000]> (intervals s);
      wire := wire s ++ [WriteHead r 200 sse_headers];
      next_res := S r |}).

(** [GET /signaling/:uuid/listen] *)
Definition listen (req_uuid : string) (s : state) : state :=
  let '(c, s1) := sse req_uuid s in
  sseSend (res c) accept_packet s1.

(** One firing of the timer of response [r]; a cleared timer does not fire. *)
Definition interval_fires (r : nat) (s : state) : state :=
  match intervals s !! r with
  | Some _ => sseSend r ping_packet s
  | None => s
  end.

Definition announce_packet (body : jsval) : jsval :=
  JObj [("type", JStr "announce"); ("uuid", get "uuid" body)].

(** [POST /signaling/announce]: the state after the handler and the status sent. *)
Definition announce (body : jsval) (s : state) : state * Z :=
  let uuid' := get "uuid" body in
  let packet := announce_packet body in
  let s' :=
    forEach connections
      (fun c s => if negb (str_strict_eq (uuid c) uuid') then sseSend (res c) packet s else s)
      s in
  (s', 200).

Definition signal_packet (body : jsval) : jsval :=
  JObj [("type", JStr "signal");
        ("initiator", get "initiator" body);
        ("data", get "data" body);
        ("uuid", get "uuid" body)].

(** [POST /signaling/:uuid/signal]; the loop's state carries the local
    [result] next to the server's state. *)
Definition signal (req_uuid : string) (body : jsval) (s : state) : state * Z :=
  let packet := signal_packet body in
  let '(s', result) :=
    forEach (fun a : state * bool => connections (fst a))
      (fun c a =>
         if String.eqb (uuid c) req_uuid
         then (sseSend (res c) packet (fst a), true)
         else a)
      (s, false) in
  (s', if result then 200 else 404).

(** The two callbacks, and whom each selects. *)
Definition announce_to (body : jsval) (c : connection) : bool :=
  negb (str_strict_eq (uuid c) (get "uuid" body)).

Definition signal_to (u : string) (c : connection) : bool :=
  String.eqb (uuid c) u.

Definition announce_callback (body : jsval) (c : connection) (s : state) : state :=
  if announce_to body c then sseSend (res c) (announce_packet body) s else s.

Definition signal_callback (u : string) (body : jsval)
    (c : connection) (a : state * bool) : state * bool :=
  if signal_to u c then (sseSend (res c) (signal_packet body) (fst a), true) else a.

End Handlers.

(** The chunks written on response [r], oldest first. *)
Definition chunks_of (r : nat) (w : list output) : list string :=
  omap (fun o => match o with
                 | Write r' chunk => if Nat.eqb r' r then Some chunk else None
                 | WriteHead _ _ _ | WriteThrew _ _ | ClientClosed _ => None
                 end) w.

(** The chunks that reached the client of response [r]: those written
    before it went away. *)
Fixpoint delivered (r : nat) (w : list output) : list string :=
  match w with
  | [] => []
  | Write r' chunk :: rest =>
      if Nat.eqb r' r then chunk :: delivered r rest else delivered r rest
  | ClientClosed r' :: rest =>
      if Nat.eqb r' r then [] else delivered r rest
  | WriteHead _ _ _ :: rest | WriteThrew _ _ :: rest => delivered r rest
  end.

(** The client of response [r] goes away.  [setUpRendezvous] registers no
    handler for the [close] event of a request or of a response, so
    neither the array nor the timers change. *)
Definition client_closes (r : nat) (s : state) : state :=
  if Nat.ltb r (next_res s) then
    {| connections := connections s;
       intervals := intervals s;
       wire := wire s ++ [ClientClosed r];
       next_res := next_res s |}
  else s.

(** What the server does between two turns of the event loop. *)
Inductive request :=
| Listen (req_uuid : string)
| Announce (body : jsval)
| Signal (req_uuid : string) (body : jsval)
| IntervalFires (r : nat)
| ClientCloses (r : nat).

Definition handle (throws : nat -> bool) (q : request) (s : state) : state :=
  match q with
  | Listen u => listen throws u s
  | Announce body => fst (announce throws body s)
  | Signal u body => fst (signal throws u body s)
  | IntervalFires r => interval_fires throws r s
  | ClientCloses r => client_closes r s
  end.

(** The states the server can be in: [init], then any sequence of
    requests, timer firings and clients going away, each with its own
    failing transports. *)
Inductive reachable : state -> Prop :=
| reachable_init : reachable init
| reachable_handle throws q s : reachable s -> reachable (handle throws q s).

(** The registries as the handlers keep them: one connection object per
    response, every response allocated, a live 5000 ms timer exactly for
    the responses that are registered, and no response registered on
    which a write ever threw. *)
Definition wf (s : state) : Prop :=
  NoDup (res <$> connections s)
  /\ (forall r, r ∈ (res <$> connections s) -> (r < next_res s)%nat)
  /\ (forall r, r ∈ (res <$> connections s) <-> intervals s !! r = Some 5000)
  /\ (forall r, intervals s !! r = None \/ intervals s !! r = Some 5000)
  /\ (forall r chunk, Write r chunk ∈ wire s -> (r < next_res s)%nat)
  /\ (forall r chunk, WriteThrew r chunk ∈ wire s ->
        (r ∉ (res <$> connections s)) /\ (r < next_res s)%nat).

(** Every stream that carries anything starts with the [accept] frame, and
    every registered stream carries something. *)
Definition accepted (s : state) : Prop :=
  forall r,
    head (chunks_of r (wire s)) = Some (frame accept_packet)
    \/ (chunks_of r (wire s) = [] /\ r ∉ (res <$> connections s)).

(** The elements a [forEach] over [l] passes to its callback, when the
    callback splices out the element it was given exactly if [evicts]
    holds of it: the element after an evicted one moves into its index
    and is never visited. *)
Fixpoint visited (evicts : connection -> bool) (l : list connection) : list connection :=
  match l with
  | [] => []
  | c :: rest =>
      c :: (if evicts c
            then match rest with
                 | [] => []
                 | _ :: rest' => visited evicts rest'
                 end
            else visited evicts rest)
  end.

(** What holds of every state the server reaches. *)
Definition inv (s : state) : Prop := wf s /\ accepted s.

(** [d] is still registered, and nothing was added to [l0]. *)
Definition keeps (l0 : list connection) (d : connection) (s : state) : Prop :=
  inv s /\ d ∈ connections s /\ (forall x, x ∈ connections s -> x ∈ l0).

(** [d] is registered, or a write on its response threw. *)
Definition tracked (d : connection) (s : state) : Prop :=
  inv s /\ (d ∈ connections s \/ exists chunk, WriteThrew (res d) chunk ∈ wire s).

(** The frames a fan-out of [packet] to the connections [sel] selects
    writes when no write fails. *)
Definition deliveries (packet : jsval) (sel : connection -> bool)
    (l : list connection) : list output :=
  (fun c => Write (res c) (frame packet)) <$> filter (fun c => sel c = true) l.

End Rendezvous.

(** ** Live reload over WebSocket (the [onProcessingComplete] callback) *)

Module Reload.
Import JSON.

(** The [readyState] constants of a WebSocket. *)
Definition CONNECTING : Z := 0.
Definition OPEN : Z := 1.
Definition CLOSING : Z := 2.
Definition CLOSED : Z := 3.

Record client := Client { socket : nat; readyState : Z }.

Record state := State {
  clients : list client;          (* [this.wss.clients], in insertion order *)
  sent : list (nat * string)      (* the messages handed to each socket, oldest first *)
}.

Inductive result (A : Type) :=
| Ok (a : A)
| Throw (e : string).
Arguments Ok {A} a.
Arguments Throw {A} e.

Definition bind {A B} (m : result A) (f : A -> result B) : result B :=
  match m with
  | Ok a => f a
  | Throw e => Throw e
  end.

(** [client.send(data)] without a callback: the WebSocket library throws
    when the socket is not open and queues the message otherwise. *)
Definition send (c : client) (data : string) (s : state) : result state :=
  if readyState c =? OPEN
  then Ok {| clients := clients s; sent := sent s ++ [(socket c, data)] |}
  else Throw "WebSocket is not open".

(** [Set.prototype.forEach]; an exception of the callback ends the loop. *)
Fixpoint forEach (l : list client) (callbackfn : client -> state -> result state)
    (s : state) : result state :=
  match l with
  | [] => Ok s
  | c :: rest => bind (callbackfn c s) (forEach rest callbackfn)
  end.

Definition update_packet : jsval := JObj [("type", JStr "update")].

(** The callback [startServer] pushes on [watcher.onProcessingComplete]. *)
Definition onProcessingComplete (s : state) : result state :=
  forEach (clients s)
    (fun client s =>
       if readyState client =? OPEN
       then bind (send client "update" s)
                 (send client (to_text (stringify update_packet)))
       else Ok s)
    s.

(** The messages handed to socket [k], oldest first. *)
Definition sent_to (k : nat) (l : list (nat * string)) : list string :=
  omap (fun m => if Nat.eqb (fst m) k then Some (snd m) else None) l.

(** What one broadcast hands to [client]. *)
Definition reload_messages (c : client) : list (nat * string) :=
  if readyState c =? OPEN
  then [(socket c, "update"); (socket c, to_text (stringify update_packet))]
  else [].

End Reload.

(** ** Server start-up ([Preview.startServer]) *)

Module Startup.
Import JSON.

(** [!!v] *)
Definition truthy (v : jsval) : bool :=
  match v with
  | JUndefined | JNull => false
  | JBool b => b
  | JNum n => negb (n =? 0)
  | JStr s => negb (String.eqb s EmptyString)
  | JArr _ | JObj _ => true
  | JReal NaN => false
  | JReal (Finite _) | JReal (Infinity _) => true
  end.

Inductive error :=
| PortfinderError
| ScanError (e : string)              (* [watcher.initialMappingsReady] rejected with [e] *)
| PREVIEW_ERROR (message : string)    (* [fail(ErrorType.PREVIEW_ERROR, message)] *)
| ServerError (e : string).           (* the 'error' event of the HTTP server *)

Inductive result (A : Type) :=
| Ok (a : A)
| Throw (e : error).
Arguments Ok {A} a.
Arguments Throw {A} e.

(** What [startServer] does to the outside, in program order. *)
Inductive effect :=
| NewWatcher
| PushOnProcessingComplete
| SpinnerCreate (text : string)
| SpinnerSucceed (text : string)
| SpinnerFail (text : string)
| WatcherWatch
| AppUse (what : string)
| AppGet (route : string)
| SetUpRendezvous
| Emit (event : string) (arg : jsval)
| ServerListen (port : jsval).

(** What the run depends on. *)
Record env := Env {
  getPortPromise : result Z;          (* how [portfinder.getPortPromise()] settles *)
  initialMappingsReady : result unit; (* how the watcher's initial scan settles *)
  watch : bool;                       (* [this.watch] *)
  npmModulesPath : string;
  dclEcsPath : string;
  dclApiPath : string;
  pathExistsSync : string -> bool;
  server_events : result unit         (* after [listen]: 'close' ([Ok]) or 'error' *)
}.

(** Effects so far, and the value or the exception thrown. *)
Definition M (A : Type) : Type := list effect * result A.

Definition ret {A} (a : A) : M A := ([], Ok a).

Definition bind {A B} (m : M A) (f : A -> M B) : M B :=
  match m with
  | (t, Ok a) => let '(t', r) := f a in ((t ++ t')%list, r)
  | (t, Throw e) => (t, Throw e)
  end.

Definition do (e : effect) : M unit := ([e], Ok tt).

Definition throw {A} (e : error) : M A := ([], Throw e).

Definition await {A} (p : result A) : M A := ([], p).

Definition try_catch {A} (body : M A) (handler : error -> M A) : M A :=
  match body with
  | (t, Ok a) => (t, Ok a)
  | (t, Throw e) => let '(t', r) := handler e in ((t ++ t')%list, r)
  end.

Notation "'let!' x ':=' m 'in' k" := (bind m (fun x => k))
  (at level 10, x name, k at level 200).
Notation "'run' m 'then' k" := (bind m (fun _ => k))
  (at level 10, k at level 200).

(** Modelled from the spec: [fail] of [../utils/errors] is not among the
    sources.  Absent supporting directories are a fatal start-up error: the
    server does not start, so [fail] throws. *)
Definition fail {A} (message : string) : M A := throw (PREVIEW_ERROR message).

(** Lines 40 to 48: [resolvedPort]. *)
Definition resolvePort (E : env) (port : jsval) : M jsval :=
  if negb (truthy port) then
    try_catch (let! p := await (getPortPromise E) in ret (JNum p))
              (fun _ => ret (JNum 2044))
  else ret port.

Definition when (b : bool) (m : M unit) : M unit := if b then m else ret tt.

Definition startServer (E : env) (port : jsval) : M unit :=
  let! resolvedPort := resolvePort E port in
  run do NewWatcher then
  run do PushOnProcessingComplete then
  run do (SpinnerCreate "Hashing files") then
  run try_catch
        (run await (initialMappingsReady E) then do (SpinnerSucceed "Hashing files"))
        (fun e => run do (SpinnerFail "Hashing files") then throw e) then
  run when (watch E) (do WatcherWatch) then
  run do (AppUse "cors") then
  run when (negb (pathExistsSync E (npmModulesPath E)))
        (fail ("Couldn't find " +:+ npmModulesPath E +:+ ", please run: npm install")) then
  let artifactPath :=
    if pathExistsSync E (dclEcsPath E) then dclEcsPath E else dclApiPath E in
  run when (negb (pathExistsSync E artifactPath))
        (fail ("Couldn't find " +:+ dclApiPath E +:+ " or " +:+ dclEcsPath E
               +:+ ", please run: npm install")) then
  run do (AppGet "/") then
  run do (AppUse "/@") then
  run do (AppUse "/unity") then
  run do (AppUse "/contents/") then
  run do (AppGet "/mappings") then
  run do (AppGet "/Qm:cid") then
  run do (AppUse "static") then
  run do (AppUse "nocache") then
  run do SetUpRendezvous then
  run do (Emit "preview:ready" resolvedPort) then
  run do (ServerListen resolvedPort) then
  await (server_events E).

(** The port [resolvePort] settles on. *)
Definition resolved (E : env) (port : jsval) : jsval :=
  if truthy port then port
  else match getPortPromise E with
       | Ok n => JNum n
       | Throw _ => JNum 2044
       end.

Definition is_listen (e : effect) : bool :=
  match e with
  | ServerListen _ => true
  | _ => false
  end.

Definition is_ready (e : effect) : bool :=
  match e with
  | Emit _ _ => true
  | _ => false
  end.

(** Everything a successful start-up does before the ready event. *)
Definition preparation (w : bool) : list effect :=
  [NewWatcher; PushOnProcessingComplete;
   SpinnerCreate "Hashing files"; SpinnerSucceed "Hashing files"]
  ++ (if w then [WatcherWatch] else [])
  ++ [AppUse "cors"; AppGet "/"; AppUse "/@"; AppUse "/unity"; AppUse "/contents/";
      AppGet "/mappings"; AppGet "/Qm:cid"; AppUse "static"; AppUse "nocache";
      SetUpRendezvous].

End Startup.

(** ** Concrete runs *)

Module Scenario.
Import JSON.

(** No write fails; the write on the first response fails. *)
Definition healthy : nat -> bool := fun _ => false.
Definition first_fails : nat -> bool := fun r => Nat.eqb r 0.

(** Two clients listen, under [u1] then under [u2]. *)
Definition listeners (u1 u2 : string) : Rendezvous.state :=
  Rendezvous.listen healthy u2 (Rendezvous.listen healthy u1 Rendezvous.init).

Definition signal_body : jsval :=
  JObj [("initiator", JBool true); ("data", JObj [("foo", JNum 1)]); ("uuid", JStr "P")].

Definition announce_body : jsval := JObj [("uuid", JStr "A")].

(** A signal to "X" while both listeners of "X" are registered and the
    write to the first of them throws. *)
Definition signal_first_fails : Rendezvous.state * Z :=
  Rendezvous.signal first_fails "X" signal_body (listeners "X" "X").

(** An announce of "A" to the listeners "B" and "C" while the write to
    "B" throws. *)
Definition announce_first_fails : Rendezvous.state * Z :=
  Rendezvous.announce first_fails announce_body (listeners "B" "C").

(** A client listens under "a" and goes away; its timer has fired [n]
    times since.  [res.write] on a response whose client is gone returns
    [false]; it does not throw. *)
Definition abandoned (n : nat) : Rendezvous.state :=
  Nat.iter n (Rendezvous.handle healthy (Rendezvous.IntervalFires 0))
    (Rendezvous.handle healthy (Rendezvous.ClientCloses 0)
       (Rendezvous.handle healthy (Rendezvous.Listen "a") Rendezvous.init)).

(** A registered client whose socket is closed. *)
Definition closed_client : Reload.client :=
  {| Reload.socket := 0; Reload.readyState := Reload.CLOSED |}.

Definition open_client : Reload.client :=
  {| Reload.socket := 1; Reload.readyState := Reload.OPEN |}.

Definition closed_only : Reload.state :=
  {| Reload.clients := [closed_client]; Reload.sent := [] |}.

Definition closed_and_open : Reload.state :=
  {| Reload.clients := [closed_client; open_client]; Reload.sent := [] |}.

(** A project with its dependencies installed, started on port 8000 while
    another process holds that port. *)
Definition port_in_use : Startup.env :=
  {| Startup.getPortPromise := Startup.Ok 8001;
     Startup.initialMappingsReady := Startup.Ok tt;
     Startup.watch := true;
     Startup.npmModulesPath := "/scene/node_modules";
     Startup.dclEcsPath := "/scene/node_modules/decentraland-ecs";
     Startup.dclApiPath := "/scene/node_modules/decentraland-api";
     Startup.pathExistsSync := fun _ => true;
     Startup.server_events := Startup.Throw (Startup.ServerError "EADDRINUSE") |}.

End Scenario.

(** ** What a fan-out writes *)

Module Attempts.
Import JSON Rendezvous.

(** The one call of [res.write] a fan-out of [packet] makes on [c], with
    its outcome. *)
Definition attempt (throws : nat -> bool) (packet : jsval) (c : connection) : output :=
  if throws (res c)
  then WriteThrew (res c) (frame packet)
  else Write (res c) (frame packet).

(** The calls of [res.write] of a fan-out that passes the connections
    [l] to its callback and sends to those [sel] selects. *)
Definition attempts (throws : nat -> bool) (packet : jsval)
    (sel : connection -> bool) (l : list connection) : list output :=
  attempt throws packet <$> filter (fun c => sel c = true) l.

(** Whether a fan-out to the connections [sel] selects evicts [c]. *)
Definition evicted (throws : nat -> bool) (sel : connection -> bool)
    (c : connection) : bool :=
  sel c && throws (res c).

End Attempts.

(** ** Lines of an event stream *)

Module Lines.

(** No character of [s] is a control character: in particular none ends
    a line. *)
Fixpoint no_control (s : string) : bool :=
  match s with
  | EmptyString => true
  | String c rest => (32 <=? N_of_ascii c)%N && no_control rest
  end.

End Lines.

(** ** The preview page ([getHTML] and the route [/]) *)

Module Html.
Import JSON.

(** [s] without its prefix [p], when it starts with it. *)
Fixpoint strip_prefix (p s : string) : option string :=
  match p, s with
  | EmptyString, _ => Some s
  | String a p', String b s' => if Ascii.eqb a b then strip_prefix p' s' else None
  | String _ _, EmptyString => None
  end.

(** [s.replace(searchValue, replaceValue)] for two strings, the second
    one holding no [$]: the first occurrence of [searchValue] is replaced,
    and [s] is returned as it is when there is none. *)
Fixpoint replace (searchValue replaceValue s : string) : string :=
  match strip_prefix searchValue s with
  | Some rest => replaceValue +:+ rest
  | None =>
      match s with
      | EmptyString => EmptyString
      | String c s' => String c (replace searchValue replaceValue s')
      end
  end.

Definition preview_tag : string :=
  "<script src=" +:+ dquote +:+ "/@/artifacts/preview.js" +:+ dquote +:+ "></script>".

Definition unity_tag : string :=
  "<script src=" +:+ dquote +:+ "/@/artifacts/unity/Build/UnityLoader.js" +:+ dquote
    +:+ "></script>".

(** [<script>window.avoidWeb3=${!ethConnectExists}</script>] and a newline. *)
Definition avoidWeb3_script (ethConnectExists : bool) : string :=
  "<script>window.avoidWeb3=" +:+ (if negb ethConnectExists then "true" else "false")
    +:+ "</script>" +:+ Rendezvous.newline.

Inductive result (A : Type) :=
| Ok (a : A)
| Throw (e : string).
Arguments Ok {A} a.
Arguments Throw {A} e.

Section Page.

(** [path.resolve] and how [fs.readFile(path, { encoding: 'utf8' })] settles. *)
Variable resolve : list string -> string.
Variable readFile : string -> result string.

Definition getHTML (artifactPath : string) (unityEnabled ethConnectExists : bool)
    : result string :=
  if unityEnabled then
    let htmlPath := resolve [artifactPath; "artifacts"; "unity-preview.html"] in
    match readFile htmlPath with
    | Ok html =>
        Ok (replace unity_tag (avoidWeb3_script ethConnectExists +:+ unity_tag) html)
    | Throw e => Throw e
    end
  else
    let htmlPath := resolve [artifactPath; "artifacts"; "preview.html"] in
    match readFile htmlPath with
    | Ok html =>
        Ok (replace preview_tag (avoidWeb3_script ethConnectExists +:+ preview_tag) html)
    | Throw e => Throw e
    end.

(** [fs.pathExists], which never rejects. *)
Variable pathExists : string -> bool.

(** The handler of [GET /]: the headers it sets, and the page [res.send]
    sends or the rejection the handler ends with, nothing being sent. *)
Definition root (workingDir artifactPath : string) (UNITY_ENABLED : jsval)
    : list (string * string) * result string :=
  let headers := [("Content-Type", "text/html")] in
  let ethConnectExists := pathExists (resolve [workingDir; "node_modules"; "eth-connect"]) in
  (headers, getHTML artifactPath (Startup.truthy UNITY_ENABLED) ethConnectExists).

End Page.

(** The template and the loader tag [getHTML] works on. *)
Definition template (unityEnabled : bool) : string :=
  if unityEnabled then "unity-preview.html" else "preview.html".

Definition loader_tag (unityEnabled : bool) : string :=
  if unityEnabled then unity_tag else preview_tag.

(** [pat] occurs in [s] at offset [length a]. *)
Definition occurs_at (pat a s : string) : Prop :=
  exists b, s = a +:+ pat +:+ b.

(** [pat] occurs in [s] at offset [length a] and nowhere before. *)
Definition first_at (pat a s : string) : Prop :=
  occurs_at pat a s
  /\ forall a', occurs_at pat a' s -> (String.length a <= String.length a')%nat.

(** [s.indexOf(pat)], [None] standing for -1. *)
Fixpoint index_of (pat s : string) : option nat :=
  match strip_prefix pat s with
  | Some _ => Some 0%nat
  | None =>
      match s with
      | EmptyString => None
      | String _ s' => S <$> index_of pat s'
      end
  end.

Definition has_dollar (s : string) : bool :=
  existsb (fun c => Ascii.eqb c "$"%char) (list_ascii_of_string s).

End Html.

(** ** The linker page ([Page.componentDidMount] of pages/linker.js) *)

Module Linker.
Import JSON.

(** What a rejected promise or a thrown exception carries: a value whose
    [message] reads as given ([undefined] when the value has none), a
    [TypeError] of the engine, or [undefined] or [null] themselves. *)
Inductive exn :=
| Failure (message : jsval)
| TypeError
| Nullish.

Inductive result (A : Type) :=
| Ok (a : A)
| Throw (e : exn).
Arguments Ok {A} a.
Arguments Throw {A} e.

(** What [this.state.error] holds: [false], a text of the page, or the
    [message] of what was caught. *)
Inductive shown :=
| NoError
| Text (t : string)
| MessageOf (e : exn).

Record state := State {
  loading : bool;
  error : shown;
  address : jsval;
  tx : jsval;
  sceneMetadata : jsval;
  ipnsHash : jsval
}.

(** [err.message] in the outer [catch]: reading a member of [undefined]
    or [null] is a [TypeError]. *)
Definition message_of (err : exn) : result shown :=
  match err with
  | Nullish => Throw TypeError
  | Failure _ | TypeError => Ok (MessageOf err)
  end.

(** The state the constructor sets; the two last members do not exist yet. *)
Definition initial : state :=
  {| loading := true; error := NoError; address := JNull; tx := JNull;
     sceneMetadata := JUndefined; ipnsHash := JUndefined |}.

(** [v.k] for a key no prototype defines: a [TypeError] on [null] and
    [undefined], the member or [undefined] otherwise. *)
Definition prop (k : string) (v : jsval) : result jsval :=
  match v with
  | JUndefined | JNull => Throw TypeError
  | _ => Ok (get k v)
  end.

(** [s.split(",")] *)
Fixpoint split_comma (s : string) : list string :=
  match s with
  | EmptyString => [EmptyString]
  | String c rest =>
      if Ascii.eqb c ","%char then EmptyString :: split_comma rest
      else match split_comma rest with
           | [] => [String c EmptyString]
           | piece :: pieces => String c piece :: pieces
           end
  end.

(** The string a template literal makes of a value. *)
Fixpoint to_string (v : jsval) : string :=
  match v with
  | JUndefined => "undefined"
  | JNull => "null"
  | JBool true => "true"
  | JBool false => "false"
  | JNum n => pretty n
  | JStr s => s
  | JArr items =>
      join "," (map (fun i => match i with
                              | JUndefined | JNull => EmptyString
                              | _ => to_string i
                              end) items)
  | JObj _ => "[object Object]"
  | JReal (Finite text) => number_text text
  | JReal (Infinity false) => "Infinity"
  | JReal (Infinity true) => "-Infinity"
  | JReal NaN => "NaN"
  end.

Section Page.

(** Numbers as [parseInt] yields them, [NaN] included. *)
Variable number : Type.
Variable parseInt : string -> number.

Inductive effect :=
| Fetch (url : string)
| Connect (contract : jsval)          (* [eth.connect([new LANDRegistry(address)])] *)
| GetAddress
| UpdateManyLandData (coordinates : list (number * number)) (data : string).

(** How the calls to the outside settle. *)
Record env := Env {
  fetch_json : string -> result jsval;        (* [fetch(url)] then [res.json()] *)
  connect : jsval -> result unit;
  getAddress : result jsval;
  updateManyLandData : list (number * number) -> string -> result jsval
}.

Variable E : env.

(** The state, the calls so far, and the value or the exception. *)
Definition M (A : Type) : Type := state -> list effect * state * result A.

Definition ret {A} (a : A) : M A := fun st => ([], st, Ok a).

Definition bind {A B} (m : M A) (f : A -> M B) : M B :=
  fun st =>
    match m st with
    | (t, st', Ok a) => let '(t', st'', r) := f a st' in ((t ++ t')%list, st'', r)
    | (t, st', Throw e) => (t, st', Throw e)
    end.

Definition call {A} (e : effect) (outcome : result A) : M A := fun st => ([e], st, outcome).

Definition lift {A} (r : result A) : M A := fun st => ([], st, r).

Definition setState (f : state -> state) : M unit := fun st => ([], f st, Ok tt).

Definition this_state : M state := fun st => ([], st, Ok st).

Definition try_catch {A} (body : M A) (handler : exn -> M A) : M A :=
  fun st =>
    match body st with
    | (t, st', Ok a) => (t, st', Ok a)
    | (t, st', Throw e) => let '(t', st'', r) := handler e st' in ((t ++ t')%list, st'', r)
    end.

Notation "'let!' x ':=' m 'in' k" := (bind m (fun x => k))
  (at level 10, x name, k at level 200).
Notation "'run' m 'then' k" := (bind m (fun _ => k))
  (at level 10, k at level 200).

Definition getContractAddress : M jsval :=
  call (Fetch "/api/contract-address") (fetch_json E "/api/contract-address").

Definition getSceneMetadata : M jsval :=
  call (Fetch "/api/get-scene-data") (fetch_json E "/api/get-scene-data").

Definition getIpnsHash : M jsval :=
  call (Fetch "/api/get-ipns-hash") (fetch_json E "/api/get-ipns-hash").

(** [closeServer(ok)]: the fetch is started and nobody waits for it. *)
Definition closeServer (ok : bool) : M unit :=
  fun st => ([Fetch ("/api/close?ok=" +:+ (if ok then "true" else "false"))], st, Ok tt).

(** [ethereum()], up to the address it returns. *)
Definition ethereum : M jsval :=
  let! answer := getContractAddress in
  let! contract := lift (prop "address" answer) in
  run call (Connect contract) (connect E contract) then
  call GetAddress (getAddress E).

(** The loop over [parcels]: the coordinates pushed, or the [TypeError]
    of the first parcel that has no [split]. *)
Fixpoint coordinates_of (parcels : list jsval) : result (list (number * number)) :=
  match parcels with
  | [] => Ok []
  | JStr parcel :: rest =>
      let pieces := split_comma parcel in
      let x := default "undefined" (pieces !! 0%nat) in
      let y := default "undefined" (pieces !! 1%nat) in
      match coordinates_of rest with
      | Ok coordinates => Ok ((parseInt x, parseInt y) :: coordinates)
      | Throw e => Throw e
      end
  | _ :: _ => Throw TypeError
  end.

(** [parcels.forEach(...)]: only an array has [forEach]. *)
Definition forEach_parcel (parcels : jsval) : result (list (number * number)) :=
  match parcels with
  | JArr items => coordinates_of items
  | _ => Throw TypeError
  end.

Definition scene_error : string :=
  "There was a problem getting scene data." +:+ Rendezvous.newline
    +:+ "Try to re-initialize the project with dcl init.".

Definition ipns_error : string :=
  "There was a problem getting IPNS hash of your scene." +:+ Rendezvous.newline
    +:+ "Try to re-upload with dcl upload.".

(** [componentDidMount]; [setState] takes effect at once, as it does
    outside a React event handler.  The [bool] of an inner [try] tells
    whether its [catch] returned from the method.  The outer [catch]
    reads [err.message] before it calls [setState]: when that read
    throws, the method rejects with the state as it stood and
    [closeServer(false)] is not reached. *)
Definition componentDidMount : M unit :=
  try_catch
    (let! address' := ethereum in
     run setState (fun st =>
           {| loading := false; error := error st; address := address'; tx := tx st;
              sceneMetadata := sceneMetadata st; ipnsHash := ipnsHash st |}) then
     let! returned :=
       try_catch
         (let! sceneMetadata' := getSceneMetadata in
          run setState (fun st =>
                {| loading := loading st; error := error st; address := address st;
                   tx := tx st; sceneMetadata := sceneMetadata'; ipnsHash := ipnsHash st |}) then
          ret false)
         (fun _ =>
            run setState (fun st =>
                  {| loading := loading st; error := Text scene_error; address := address st;
                     tx := tx st; sceneMetadata := sceneMetadata st;
                     ipnsHash := ipnsHash st |}) then
            ret true) in
     if returned : bool then ret tt else
     let! returned :=
       try_catch
         (let! ipnsHash' := getIpnsHash in
          run setState (fun st =>
                {| loading := loading st; error := error st; address := address st;
                   tx := tx st; sceneMetadata := sceneMetadata st; ipnsHash := ipnsHash' |}) then
          ret false)
         (fun _ =>
            run setState (fun st =>
                  {| loading := loading st; error := Text ipns_error; address := address st;
                     tx := tx st; sceneMetadata := sceneMetadata st;
                     ipnsHash := ipnsHash st |}) then
            ret true) in
     if returned : bool then ret tt else
     let! st := this_state in
     let! scene := lift (prop "scene" (sceneMetadata st)) in
     let! parcels := lift (prop "parcels" scene) in
     let! coordinates := lift (forEach_parcel parcels) in
     let! st := this_state in
     let data := "0," +:+ to_string (ipnsHash st) in
     let! tx' := call (UpdateManyLandData coordinates data)
                      (updateManyLandData E coordinates data) in
     run setState (fun st =>
           {| loading := loading st; error := error st; address := address st; tx := tx';
              sceneMetadata := sceneMetadata st; ipnsHash := ipnsHash st |}) then
     closeServer true)
    (fun err =>
       let! message := lift (message_of err) in
       run setState (fun st =>
             {| loading := false; error := message; address := address st; tx := tx st;
                sceneMetadata := sceneMetadata st; ipnsHash := ipnsHash st |}) then
       closeServer false).

(** No call to the outside is rejected with [undefined] or [null]. *)
Definition never_nullish : Prop :=
  (forall url, fetch_json E url <> Throw Nullish)
  /\ (forall contract, connect E contract <> Throw Nullish)
  /\ getAddress E <> Throw Nullish
  /\ (forall coordinates data, updateManyLandData E coordinates data <> Throw Nullish).

(** The calls that ask the server to close. *)
Definition is_close (e : effect) : bool :=
  match e with
  | Fetch url => String.prefix "/api/close" url
  | _ => false
  end.

Definition is_update (e : effect) : bool :=
  match e with
  | UpdateManyLandData _ _ => true
  | _ => false
  end.

End Page.

(** [s] holds no comma. *)
Definition no_comma (s : string) : bool :=
  forallb (fun c => negb (Ascii.eqb c ","%char)) (list_ascii_of_string s).

Arguments Fetch {number} url.
Arguments Connect {number} contract.
Arguments GetAddress {number}.
Arguments UpdateManyLandData {number} coordinates data.
Arguments is_close {number} e.
Arguments fetch_json {number} e url.
Arguments connect {number} e contract.
Arguments getAddress {number} e.
Arguments updateManyLandData {number} e coordinates data.
Arguments is_update {number} e.
Arguments never_nullish {number} E.

End Linker.

(** ** Members of an object *)

Module Members.
Import JSON.

Definition is_undefined (v : jsval) : bool :=
  match v with
  | JUndefined => true
  | _ => false
  end.

(** The members of an object that hold a value. *)
Definition defined_members (fields : list (string * jsval)) : list (string * jsval) :=
  filter (fun kv => is_undefined (snd kv) = false) fields.

End Members.

(** ** Reading a start-up trace *)

Module Effects.
Import Startup.

Definition is_spinner (e : effect) : bool :=
  match e with
  | SpinnerCreate _ | SpinnerSucceed _ | SpinnerFail _ => true
  | _ => false
  end.

Definition is_watch (e : effect) : bool :=
  match e with
  | WatcherWatch => true
  | _ => false
  end.

(** A route or middleware is installed. *)
Definition is_route (e : effect) : bool :=
  match e with
  | AppUse _ | AppGet _ | SetUpRendezvous => true
  | _ => false
  end.

(** The supporting directories [startServer] looks for are there. *)
Definition dependencies_installed (E : env) : bool :=
  pathExistsSync E (npmModulesPath E)
  && (pathExistsSync E (dclEcsPath E) || pathExistsSync E (dclApiPath E)).

Definition scan_succeeds (E : env) : bool :=
  match initialMappingsReady E with
  | Ok _ => true
  | Throw _ => false
  end.

End Effects.

(** ** More concrete runs *)

Module Runs.
Import JSON.

(** Three clients listen under "X"; the write to the second one fails. *)
Definition three_listeners : Rendezvous.state :=
  Rendezvous.listen Scenario.healthy "X" (Scenario.listeners "X" "X").

Definition second_fails : nat -> bool := fun r => Nat.eqb r 1.
Definition third_fails : nat -> bool := fun r => Nat.eqb r 2.

(** A body with no [uuid]. *)
Definition empty_body : jsval := JObj [].

(** A linker server that answers every request, for a scene of two
    parcels; [parseInt] is left as the text it is given. *)
Definition answers (url : string) : Linker.result jsval :=
  if String.eqb url "/api/contract-address" then Linker.Ok (JObj [("address", JStr "0xc")])
  else if String.eqb url "/api/get-scene-data" then
    Linker.Ok (JObj [("scene", JObj [("parcels", JArr [JStr "1,2"; JStr "-3,4"])])])
  else Linker.Ok (JStr "Qm1").

Definition linker_env : Linker.env string :=
  {| Linker.fetch_json := answers;
     Linker.connect := fun _ => Linker.Ok tt;
     Linker.getAddress := Linker.Ok (JStr "0xa");
     Linker.updateManyLandData := fun _ _ => Linker.Ok (JStr "0xtx") |}.

(** A template that loads the preview twice, and a disk that holds it. *)
Definition page_head : string := "<html><body>".
Definition page_tail : string := Html.preview_tag +:+ "</body></html>".
Definition page : string := page_head +:+ Html.preview_tag +:+ page_tail.
Definition path_join (parts : list string) : string := JSON.join "/" parts.
Definition disk (path : string) : Html.result string :=
  if String.eqb path "/ecs/artifacts/preview.html" then Html.Ok page
  else Html.Throw "ENOENT".

(** A project whose [node_modules] is missing, started with the watcher on. *)
Definition no_node_modules : Startup.env :=
  {| Startup.getPortPromise := Startup.Ok 8001;
     Startup.initialMappingsReady := Startup.Ok tt;
     Startup.watch := true;
     Startup.npmModulesPath := "/scene/node_modules";
     Startup.dclEcsPath := "/scene/node_modules/decentraland-ecs";
     Startup.dclApiPath := "/scene/node_modules/decentraland-api";
     Startup.pathExistsSync := fun _ => false;
     Startup.server_events := Startup.Ok tt |}.

End Runs.

(** * Properties *)

(** ** The connection array: [indexOf] and [splice] *)

Section ArrayFacts.
Import Rendezvous.

Lemma indexOf_from_absent (l : list connection) (r : nat) (i : Z) :
  r ∉ (res <$> l) -> indexOf_from l r i = -1.
Proof.
  revert i. induction l as [|c l IH]; intros i Hr; simpl; [done|].
  rewrite fmap_cons in Hr. apply not_elem_of_cons in Hr as [Hne Hr].
  destruct (Nat.eqb_spec (res c) r) as [?|_]; [done|]. by apply IH.
Qed.

Lemma indexOf_from_lookup (l : list connection) (r : nat) (i : Z) (k : nat) (c : connection) :
  NoDup (res <$> l) -> l !! k = Some c -> res c = r ->
  indexOf_from l r i = i + Z.of_nat k.
Proof.
  revert i k. induction l as [|d l IH]; intros i k Hnd Hk Hc; [done|].
  rewrite fmap_cons in Hnd. apply NoDup_cons in Hnd as [Hd Hnd].
  destruct k as [|k]; simpl in *.
  - injection Hk as ->. rewrite Hc, Nat.eqb_refl. lia.
  - destruct (Nat.eqb_spec (res d) r) as [Heq|_].
    + exfalso. apply Hd. rewrite Heq, <- Hc.
      apply list_elem_of_fmap. exists c. split; [done|].
      by eapply list_elem_of_lookup_2.
    + rewrite (IH (i + 1) k) by done. lia.
Qed.

Lemma splice_inside {A} (k : nat) (l : list A) :
  (k <= length l)%nat -> splice (Z.of_nat k) 1 l = delete k l.
Proof.
  intros Hk. unfold splice.
  rewrite delete_take_drop.
  destruct (Z.ltb_spec (Z.of_nat k) 0) as [?|_]; [lia|].
  rewrite Z.min_l by lia. rewrite Nat2Z.id.
  destruct (decide (k = length l)) as [->|Hne].
  - rewrite Z.min_r by lia.
    replace (Z.to_nat _) with (length l) by lia.
    rewrite !drop_ge by lia. done.
  - rewrite Z.min_l by lia.
    replace (Z.to_nat _) with (S k) by lia. done.
Qed.

Lemma splice_minus_one {A} (l : list A) :
  splice (-1) 1 l = take (length l - 1) l.
Proof.
  unfold splice. change (-1 <? 0) with true. cbv iota.
  destruct (decide (length l = 0%nat)) as [H0|Hpos].
  - destruct l; [done | discriminate].
  - rewrite Z.max_l by lia. rewrite Z.min_l by lia.
    replace (Z.to_nat (Z.of_nat (length l) + -1 + Z.max 1 0)) with (length l) by lia.
    replace (Z.to_nat (Z.of_nat (length l) + -1)) with (length l - 1)%nat by lia.
    rewrite drop_ge by lia. by rewrite app_nil_r.
Qed.

Lemma delete_registered (l : list connection) (k : nat) (c : connection) :
  NoDup (res <$> l) -> l !! k = Some c ->
  NoDup (res <$> delete k l)
  /\ (forall r, r ∈ (res <$> delete k l) <-> r ∈ (res <$> l) /\ r <> res c)
  /\ (forall d, d ∈ delete k l <-> d ∈ l /\ d <> c).
Proof.
  intros Hnd Hk. rewrite delete_take_drop.
  pose proof (take_drop_middle l k c Hk) as Hl.
  set (l1 := take k l) in *. set (l2 := drop (S k) l) in *.
  clearbody l1 l2. subst l. clear Hk.
  rewrite fmap_app, fmap_cons in Hnd.
  apply NoDup_app in Hnd as (Hn1 & Hdisj & Hn2).
  apply NoDup_cons in Hn2 as [Hc Hn2].
  assert (Hc1 : res c ∉ (res <$> l1)).
  { intros Hin. apply (Hdisj _ Hin). left. }
  split; [|split].
  - rewrite fmap_app. apply NoDup_app. split; [done|]. split; [|done].
    intros x Hx Hx2. apply (Hdisj x Hx). by right.
  - intros r. rewrite !fmap_app, fmap_cons, !elem_of_app, elem_of_cons.
    split.
    + intros [H|H]; (split; [tauto|]); intros ->; tauto.
    + intros [[H|[H|H]] Hne]; tauto.
  - intros d. rewrite !elem_of_app, elem_of_cons. split.
    + intros [H|H]; (split; [tauto|]); intros ->.
      * apply Hc1. apply list_elem_of_fmap. eauto.
      * apply Hc. apply list_elem_of_fmap. eauto.
    + intros [[H|[H|H]] Hne]; tauto.
Qed.

Lemma chunks_of_app (r : nat) (w1 w2 : list output) :
  chunks_of r (w1 ++ w2) = chunks_of r w1 ++ chunks_of r w2.
Proof. unfold chunks_of. apply omap_app. Qed.

Lemma chunks_of_write (r r' : nat) (chunk : string) :
  chunks_of r [Write r' chunk] = if Nat.eqb r' r then [chunk] else [].
Proof. unfold chunks_of. simpl. by destruct (Nat.eqb r' r). Qed.

Lemma chunks_of_elem (r : nat) (w : list output) (chunk : string) :
  chunk ∈ chunks_of r w <-> Write r chunk ∈ w.
Proof.
  unfold chunks_of. rewrite list_elem_of_omap. split.
  - intros ([r0 st hd|r' ch|r' ch|r'] & Hin & Heq); [done| |done|done].
    destruct (Nat.eqb_spec r' r) as [->|]; [|done].
    by injection Heq as ->.
  - intros Hin. exists (Write r chunk). split; [done|]. by rewrite Nat.eqb_refl.
Qed.

Lemma chunks_of_threw (r r' : nat) (chunk : string) :
  chunks_of r [WriteThrew r' chunk] = [].
Proof. done. Qed.

Lemma chunks_of_closed (r r' : nat) : chunks_of r [ClientClosed r'] = [].
Proof. done. Qed.

Lemma registered_lookup (l : list connection) (r : nat) :
  r ∈ (res <$> l) -> exists k c, l !! k = Some c /\ res c = r.
Proof.
  intros (c & -> & Hc)%list_elem_of_fmap.
  apply list_elem_of_lookup_1 in Hc as [k Hk]. eauto.
Qed.

End ArrayFacts.

(** ** A client that goes away *)

Section CloseFacts.
Import Rendezvous.

Lemma client_closes_registries (r : nat) (s : state) :
  connections (client_closes r s) = connections s
  /\ intervals (client_closes r s) = intervals s
  /\ next_res (client_closes r s) = next_res s
  /\ (forall r', chunks_of r' (wire (client_closes r s)) = chunks_of r' (wire s))
  /\ (forall o, o ∈ wire (client_closes r s) -> o ∈ wire s \/ o = ClientClosed r).
Proof.
  unfold client_closes. destruct (Nat.ltb r (next_res s)); simpl.
  - repeat split; try done.
    + intros r'. by rewrite chunks_of_app, chunks_of_closed, app_nil_r.
    + intros o [?|Ho]%elem_of_app; [by left | right].
      by apply list_elem_of_singleton in Ho.
  - repeat split; try done. intros o ?. by left.
Qed.

Lemma client_closes_inv (r : nat) (s : state) : inv s -> inv (client_closes r s).
Proof.
  destruct (client_closes_registries r s) as (Hc & Hi & Hn & Hch & Hw).
  intros [(Hnd & Hlt & Hint & Hper & Hwr & Hthrew) Hacc]. split.
  - unfold wf. rewrite Hc, Hi, Hn.
    split; [done|]. split; [done|]. split; [done|]. split; [done|]. split.
    + intros r' chunk [?|?]%Hw; [by eapply Hwr | done].
    + intros r' chunk [?|?]%Hw; [by eapply Hthrew | done].
  - intros r'. rewrite Hch, Hc. apply Hacc.
Qed.

End CloseFacts.

(** ** A single [sseSend] *)

Section SendFacts.
Import Rendezvous.
Variable throws : nat -> bool.

Lemma sseSend_ok (r : nat) (data : JSON.jsval) (s : state) :
  throws r = false ->
  sseSend throws r data s
  = {| connections := connections s; intervals := intervals s;
       wire := wire s ++ [Write r (frame data)]; next_res := next_res s |}.
Proof. intros H. unfold sseSend. by rewrite H. Qed.

Lemma sseSend_evicts (r : nat) (data : JSON.jsval) (s : state) (k : nat) (c : connection) :
  throws r = true -> NoDup (res <$> connections s) ->
  connections s !! k = Some c -> res c = r ->
  sseSend throws r data s
  = {| connections := delete k (connections s); intervals := delete r (intervals s);
       wire := wire s ++ [WriteThrew r (frame data)]; next_res := next_res s |}.
Proof.
  intros H Hnd Hk Hc. unfold sseSend. rewrite H. f_equal.
  unfold indexOf. rewrite (indexOf_from_lookup _ r 0 k c) by done.
  rewrite Z.add_0_l. apply splice_inside.
  apply lookup_lt_Some in Hk. lia.
Qed.

Lemma sseSend_absent (r : nat) (data : JSON.jsval) (s : state) :
  throws r = true -> r ∉ (res <$> connections s) ->
  sseSend throws r data s
  = {| connections := take (length (connections s) - 1) (connections s);
       intervals := delete r (intervals s);
       wire := wire s ++ [WriteThrew r (frame data)]; next_res := next_res s |}.
Proof.
  intros H Hr. unfold sseSend. rewrite H. f_equal.
  unfold indexOf. rewrite indexOf_from_absent by done. apply splice_minus_one.
Qed.

(** A send on a registered response keeps the registries well formed. *)
Lemma sseSend_wf (r : nat) (data : JSON.jsval) (s : state) :
  wf s -> r ∈ (res <$> connections s) -> wf (sseSend throws r data s).
Proof.
  intros (Hnd & Hlt & Hint & Hper & Hw & Hthrew) Hr.
  destruct (throws r) eqn:Ht.
  - destruct (registered_lookup _ _ Hr) as (k & c & Hk & Hc).
    rewrite (sseSend_evicts r data s k c) by done.
    destruct (delete_registered _ k c Hnd Hk) as (Hnd' & Hmem & _).
    unfold wf; simpl. split; [done|]. split; [|split; [|split; [|split]]].
    + intros r' Hr'. apply Hlt. by apply Hmem.
    + intros r'. rewrite Hmem, Hc. rewrite lookup_delete.
      case_decide as Heq.
      * subst r'. split; [tauto | done].
      * rewrite <- Hint. split; [tauto|]. intros H. split; [done | congruence].
    + intros r'. rewrite lookup_delete. case_decide; [by left | apply Hper].
    + intros r' chunk [H|H%list_elem_of_singleton]%elem_of_app; [|done].
      by eapply Hw.
    + intros r' chunk [H|H%list_elem_of_singleton]%elem_of_app.
      * destruct (Hthrew r' chunk H) as [Hout Hb]. split; [|done].
        rewrite Hmem. tauto.
      * injection H as -> _. split; [|by apply Hlt].
        rewrite Hmem. intros [_ ?]. congruence.
  - rewrite sseSend_ok by done. unfold wf; simpl.
    split; [done|]. split; [done|]. split; [done|]. split; [done|]. split.
    + intros r' chunk [H|H%list_elem_of_singleton]%elem_of_app; [by eapply Hw|].
      injection H as -> _. by apply Hlt.
    + intros r' chunk [H|H%list_elem_of_singleton]%elem_of_app; [|done].
      by apply (Hthrew r' chunk).
Qed.

(** ... and keeps [accept] at the head of every stream. *)
Lemma sseSend_accepted (r : nat) (data : JSON.jsval) (s : state) :
  wf s -> accepted s -> r ∈ (res <$> connections s) ->
  accepted (sseSend throws r data s).
Proof.
  intros (Hnd & _) Hacc Hr r'.
  destruct (throws r) eqn:Ht.
  - destruct (registered_lookup _ _ Hr) as (k & c & Hk & Hc).
    rewrite (sseSend_evicts r data s k c) by done. simpl.
    rewrite chunks_of_app, chunks_of_threw, app_nil_r.
    destruct (Hacc r') as [H|[H1 H2]]; [by left | right].
    split; [done|]. intros Hin.
    apply (delete_registered _ k c Hnd Hk) in Hin. tauto.
  - rewrite sseSend_ok by done. simpl.
    rewrite chunks_of_app, chunks_of_write.
    destruct (Hacc r') as [H|[H1 H2]].
    + left. destruct (chunks_of r' (wire s)); [done|]. done.
    + destruct (Nat.eqb_spec r r') as [->|Hne]; [done|].
      right. by rewrite app_nil_r.
Qed.

End SendFacts.

(** ** [forEach] over an array its callback splices *)

Section ForEachFacts.
Import Rendezvous.
Context {A : Type} (arr : A -> list connection) (f : connection -> A -> A).

(** Whatever every call of the callback on a current element preserves,
    the loop preserves. *)
Lemma forEach_loop_preserves (P : A -> Prop) :
  (forall c a, P a -> c ∈ arr a -> P (f c a)) ->
  forall n k a, P a -> P (forEach_loop arr f n k a).
Proof.
  intros Hf n. induction n as [|n IH]; intros k a Ha; simpl; [done|].
  apply IH. destruct (arr a !! k) as [c|] eqn:Hk; [|done].
  apply Hf; [done|]. by eapply list_elem_of_lookup_2.
Qed.

Lemma forEach_preserves (P : A -> Prop) :
  (forall c a, P a -> c ∈ arr a -> P (f c a)) ->
  forall a, P a -> P (forEach arr f a).
Proof. intros Hf a. apply forEach_loop_preserves, Hf. Qed.

Variable evicts : connection -> bool.
Hypothesis f_splices : forall c a k,
  NoDup (res <$> arr a) -> arr a !! k = Some c ->
  arr (f c a) = if evicts c then delete k (arr a) else arr a.

Lemma visited_next (l : list connection) (n : nat) :
  match drop n l with
  | [] => []
  | _ :: rest' => visited evicts rest'
  end = visited evicts (drop (S n) l).
Proof.
  revert n. induction l as [|x l IH]; intros [|n]; simpl; done.
Qed.

Lemma drop_after_delete (l : list connection) (k : nat) :
  (k < length l)%nat -> drop (S k) (delete k l) = drop (S (S k)) l.
Proof.
  intros Hk. rewrite delete_take_drop.
  rewrite drop_app_ge by (rewrite length_take; lia).
  rewrite length_take, drop_drop. f_equal. lia.
Qed.

(** The loop calls the callback on the [visited] elements, in order. *)
Lemma forEach_loop_visited (n k : nat) (a : A) :
  NoDup (res <$> arr a) -> (length (arr a) <= n + k)%nat ->
  forEach_loop arr f n k a
  = foldl (fun a c => f c a) a (visited evicts (drop k (arr a))).
Proof.
  revert k a. induction n as [|n IH]; intros k a Hnd Hlen; simpl.
  - by rewrite drop_ge by lia.
  - destruct (arr a !! k) as [c|] eqn:Hk.
    + rewrite (drop_S _ c _ Hk). simpl.
      pose proof (f_splices c a k Hnd Hk) as Harr.
      pose proof (lookup_lt_Some _ _ _ Hk) as Hlt.
      destruct (evicts c).
      * rewrite visited_next, IH.
        -- by rewrite Harr, drop_after_delete.
        -- rewrite Harr. by apply (delete_registered _ k c).
        -- rewrite Harr, length_delete by eauto. lia.
      * rewrite IH; rewrite ?Harr; [done | done | lia].
    + apply lookup_ge_None_1 in Hk.
      rewrite IH by (done || lia). rewrite !drop_ge by lia. done.
Qed.

Lemma forEach_visited (a : A) :
  NoDup (res <$> arr a) ->
  forEach arr f a = foldl (fun a c => f c a) a (visited evicts (arr a)).
Proof.
  intros Hnd. unfold forEach. rewrite forEach_loop_visited by (done || lia).
  done.
Qed.

End ForEachFacts.

Section VisitedFacts.
Import Rendezvous.

Lemma visited_all (evicts : connection -> bool) (l : list connection) :
  (forall c, c ∈ l -> evicts c = false) -> visited evicts l = l.
Proof.
  induction l as [|c l IH]; intros H; simpl; [done|].
  rewrite (H c) by left. f_equal. apply IH. intros d Hd. apply H. by right.
Qed.

Lemma visited_existsb (evicts sel : connection -> bool) (l : list connection) :
  (forall c, evicts c = true -> sel c = true) ->
  existsb sel (visited evicts l) = existsb sel l.
Proof.
  intros Hsel. induction l as [|c l IH]; simpl; [done|].
  destruct (evicts c) eqn:He.
  - by rewrite (Hsel c He).
  - simpl. by rewrite IH.
Qed.

End VisitedFacts.

(** ** The handlers keep the registries well formed *)

Section HandlerFacts.
Import Rendezvous.
Variable throws : nat -> bool.

Lemma sseSend_inv (r : nat) (data : JSON.jsval) (s : state) :
  inv s -> r ∈ (res <$> connections s) -> inv (sseSend throws r data s).
Proof.
  intros [Hwf Hacc] Hr. split; [by apply sseSend_wf | by apply sseSend_accepted].
Qed.

Lemma registered_res (c : connection) (l : list connection) :
  c ∈ l -> res c ∈ (res <$> l).
Proof. intros Hc. apply list_elem_of_fmap. eauto. Qed.

Lemma announce_inv (body : JSON.jsval) (s : state) :
  inv s -> inv (fst (announce throws body s)).
Proof.
  intros Hs. unfold announce; simpl.
  apply (forEach_preserves connections _ inv); [|done].
  intros c a Ha Hc. destruct (negb _); [|done].
  apply sseSend_inv; [done | by apply registered_res].
Qed.

Lemma signal_inv (u : string) (body : JSON.jsval) (s : state) :
  inv s -> inv (fst (signal throws u body s)).
Proof.
  intros Hs. unfold signal.
  match goal with |- context [forEach ?arr ?f ?a0] =>
    pose proof (forEach_preserves arr f (fun x => inv (fst x))) as H;
    destruct (forEach arr f a0) as [s' result] eqn:E end.
  simpl. change s' with (fst (s', result)). rewrite <- E. apply H; [|done].
  intros c a Ha Hc. destruct (String.eqb _ _); [|done]. simpl.
  apply sseSend_inv; [done | by apply registered_res].
Qed.

Lemma interval_fires_inv (r : nat) (s : state) :
  inv s -> inv (interval_fires throws r s).
Proof.
  intros Hs. unfold interval_fires.
  destruct (intervals s !! r) as [p|] eqn:Hp; [|done].
  apply sseSend_inv; [done|].
  destruct Hs as [(_ & _ & Hint & Hper & _) _]. apply Hint.
  destruct (Hper r) as [H|H]; congruence.
Qed.

Lemma fresh_unregistered (s : state) :
  wf s -> next_res s ∉ (res <$> connections s).
Proof. intros (_ & Hlt & _) Hin. apply Hlt in Hin. lia. Qed.

Lemma fresh_silent (s : state) :
  wf s -> chunks_of (next_res s) (wire s) = [].
Proof.
  intros (_ & _ & _ & _ & Hw & _).
  destruct (chunks_of (next_res s) (wire s)) as [|chunk rest] eqn:E; [done|].
  assert (Hin : chunk ∈ chunks_of (next_res s) (wire s)) by (rewrite E; left).
  apply chunks_of_elem, Hw in Hin. lia.
Qed.

Lemma sse_wf (u : string) (s : state) : wf s -> wf (snd (sse u s)).
Proof.
  intros Hwf. pose proof (fresh_unregistered s Hwf) as Hfresh.
  destruct Hwf as (Hnd & Hlt & Hint & Hper & Hw & Hthrew).
  unfold sse, wf; simpl. rewrite fmap_app. simpl.
  split; [|split; [|split; [|split; [|split]]]].
  - apply NoDup_app. split; [done|]. split; [|apply NoDup_singleton].
    intros x Hx Hx'%list_elem_of_singleton. by subst x.
  - intros r [H|H%list_elem_of_singleton]%elem_of_app; [apply Hlt in H|]; lia.
  - intros r. rewrite elem_of_app, list_elem_of_singleton, lookup_insert.
    case_decide as Heq.
    + subst r. split; [done | by right].
    + rewrite <- Hint. split; [intros [?|?]; [done | congruence] | by left].
  - intros r. rewrite lookup_insert. case_decide; [by right | apply Hper].
  - intros r chunk [H|H%list_elem_of_singleton]%elem_of_app; [|done].
    apply Hw in H. lia.
  - intros r chunk [H|H%list_elem_of_singleton]%elem_of_app; [|done].
    destruct (Hthrew r chunk H) as [Hout Hb]. split; [|lia].
    rewrite elem_of_app, list_elem_of_singleton. intros [?|?]; [done | lia].
Qed.

Lemma listen_inv (u : string) (s : state) : inv s -> inv (listen throws u s).
Proof.
  intros [Hwf Hacc].
  pose proof (sse_wf u s Hwf) as Hwf1.
  pose proof (fresh_unregistered s Hwf) as Hfresh.
  pose proof (fresh_silent s Hwf) as Hsilent.
  unfold listen. destruct (sse u s) as [c s1] eqn:Hsse.
  assert (Hc : c = {| uuid := u; res := next_res s |}) by (by inversion Hsse).
  assert (Hs1 : s1 = snd (sse u s)) by (by rewrite Hsse).
  assert (Hreg : res c ∈ (res <$> connections s1)).
  { subst. simpl. rewrite fmap_app. apply elem_of_app. right. by left. }
  split; [by apply sseSend_wf; subst|].
  intros r'. destruct (throws (res c)) eqn:Ht.
  - assert (Hk : connections s1 !! length (connections s) = Some c).
    { subst. simpl. by rewrite list_lookup_middle. }
    rewrite (sseSend_evicts throws _ _ s1 _ c) by (done || by destruct Hwf1).
    simpl. subst s1; simpl. rewrite !chunks_of_app. simpl. rewrite !app_nil_r.
    replace (delete _ _) with (connections s); [apply Hacc|].
    rewrite delete_take_drop, take_app_length.
    rewrite drop_app_ge by lia.
    replace (S _ - _)%nat with 1%nat by lia. by rewrite app_nil_r.
  - rewrite sseSend_ok by done. subst s1; simpl.
    rewrite !chunks_of_app, chunks_of_write. simpl. rewrite app_nil_r.
    rewrite fmap_app. simpl.
    destruct (Nat.eqb_spec (res c) r') as [<-|Hne].
    + left. subst c; simpl. by rewrite Hsilent.
    + rewrite app_nil_r. destruct (Hacc r') as [H|[H1 H2]]; [by left | right].
      split; [done|]. rewrite elem_of_app, list_elem_of_singleton.
      subst c; simpl in *. intros [?|?]; [done | congruence].
Qed.

Lemma handle_inv (q : request) (s : state) : inv s -> inv (handle throws q s).
Proof.
  destruct q; simpl;
    [apply listen_inv | apply announce_inv | apply signal_inv | apply interval_fires_inv
    | apply client_closes_inv].
Qed.

End HandlerFacts.

Lemma init_inv : Rendezvous.inv Rendezvous.init.
Proof.
  split.
  - unfold Rendezvous.wf; simpl. split; [|split; [|split; [|split; [|split]]]].
    + apply NoDup_nil_2.
    + intros r H. by apply elem_of_nil in H.
    + intros r. rewrite lookup_empty. split; [|done].
      intros H. by apply elem_of_nil in H.
    + intros r. by left.
    + intros r chunk H. by apply elem_of_nil in H.
    + intros r chunk H. by apply elem_of_nil in H.
  - intros r. right. split; [done|]. simpl. apply not_elem_of_nil.
Qed.

Lemma reachable_inv (s : Rendezvous.state) : Rendezvous.reachable s -> Rendezvous.inv s.
Proof.
  induction 1 as [|throws q s _ IH]; [apply init_inv | by apply handle_inv].
Qed.

(** ** Who stays registered across a request *)

Section Membership.
Import Rendezvous.
Variable throws : nat -> bool.

Lemma registered_inj (l : list connection) (c d : connection) :
  NoDup (res <$> l) -> c ∈ l -> d ∈ l -> res c = res d -> c = d.
Proof.
  induction l as [|x l IH]; intros Hnd Hc Hd Heq.
  - by apply elem_of_nil in Hc.
  - rewrite fmap_cons in Hnd. apply NoDup_cons in Hnd as [Hx Hnd].
    apply elem_of_cons in Hc as [->|Hc]; apply elem_of_cons in Hd as [->|Hd].
    + done.
    + exfalso. apply Hx. rewrite Heq. by apply registered_res.
    + exfalso. apply Hx. rewrite <- Heq. by apply registered_res.
    + by apply IH.
Qed.

(** A send never drops a connection whose own write succeeds, and never
    adds one. *)
Lemma sseSend_keeps (r : nat) (data : JSON.jsval) (s : state) (d : connection) :
  wf s -> r ∈ (res <$> connections s) ->
  d ∈ connections s -> throws (res d) = false ->
  d ∈ connections (sseSend throws r data s).
Proof.
  intros (Hnd & _) Hr Hd Hok.
  destruct (throws r) eqn:Ht; [|by rewrite sseSend_ok].
  destruct (registered_lookup _ _ Hr) as (k & c & Hk & Hc).
  rewrite (sseSend_evicts throws r data s k c) by done. simpl.
  apply (delete_registered _ k c Hnd Hk). split; [done|].
  intros ->. congruence.
Qed.

Lemma sseSend_no_growth (r : nat) (data : JSON.jsval) (s : state) (d : connection) :
  wf s -> r ∈ (res <$> connections s) ->
  d ∈ connections (sseSend throws r data s) -> d ∈ connections s.
Proof.
  intros (Hnd & _) Hr.
  destruct (throws r) eqn:Ht; [|by rewrite sseSend_ok].
  destruct (registered_lookup _ _ Hr) as (k & c & Hk & Hc).
  rewrite (sseSend_evicts throws r data s k c) by done. simpl.
  intros Hd. by apply (delete_registered _ k c Hnd Hk) in Hd as [? _].
Qed.

Lemma sseSend_keeps_all (l0 : list connection) (d : connection)
    (r : nat) (data : JSON.jsval) (s : state) :
  throws (res d) = false -> r ∈ (res <$> connections s) ->
  keeps l0 d s -> keeps l0 d (sseSend throws r data s).
Proof.
  intros Hok Hr (Hinv & Hd & Hsub). split; [by apply sseSend_inv|].
  destruct Hinv as [Hwf _]. split; [by apply sseSend_keeps|].
  intros x Hx. by eapply Hsub, sseSend_no_growth.
Qed.

Lemma handle_keeps (q : request) (s : state) (d : connection) :
  inv s -> d ∈ connections s -> throws (res d) = false ->
  d ∈ connections (handle throws q s).
Proof.
  intros Hinv Hd Hok.
  assert (Hkeep : keeps (connections s) d s) by (by split).
  destruct q as [u|body|u body|r|r]; simpl.
  - unfold listen. destruct (sse u s) as [c s1] eqn:Hsse.
    assert (Hs1 : s1 = snd (sse u s)) by (by rewrite Hsse).
    assert (c = {| uuid := u; res := next_res s |}) by (by inversion Hsse).
    destruct Hinv as [Hwf _]. apply sseSend_keeps; [| | |done].
    + subst s1. by apply sse_wf.
    + subst; simpl. rewrite fmap_app. apply elem_of_app. right. by left.
    + subst; simpl. apply elem_of_app. by left.
  - unfold announce; simpl.
    apply (forEach_preserves connections _ (keeps (connections s) d)); [|done].
    intros c a Ha Hc. destruct (negb _); [|done].
    apply sseSend_keeps_all; [done | by apply registered_res | done].
  - unfold signal.
    match goal with |- context [forEach ?arr ?f ?a0] =>
      pose proof (forEach_preserves arr f (fun x => keeps (connections s) d (fst x))) as H;
      destruct (forEach arr f a0) as [s' result] eqn:E end.
    simpl. change s' with (fst (s', result)). rewrite <- E. apply H; [|done].
    intros c a Ha Hc. destruct (String.eqb _ _); [|done]. simpl.
    apply sseSend_keeps_all; [done | by apply registered_res | done].
  - unfold interval_fires.
    destruct (intervals s !! r) as [p|] eqn:Hp; [|done].
    destruct Hinv as [Hwf _]. apply sseSend_keeps; try done.
    destruct Hwf as (_ & _ & Hint & Hper & _). apply Hint.
    destruct (Hper r) as [H|H]; congruence.
  - by rewrite (proj1 (client_closes_registries r s)).
Qed.

Lemma handle_no_growth (q : request) (s : state) (d : connection) :
  inv s -> d ∈ connections (handle throws q s) ->
  d ∈ connections s \/ res d = next_res s.
Proof.
  intros Hinv.
  destruct q as [u|body|u body|r|r]; simpl.
  - unfold listen. destruct (sse u s) as [c s1] eqn:Hsse.
    assert (Hs1 : s1 = snd (sse u s)) by (by rewrite Hsse).
    assert (c = {| uuid := u; res := next_res s |}) by (by inversion Hsse).
    destruct Hinv as [Hwf _]. intros Hd. apply sseSend_no_growth in Hd.
    + subst; simpl in Hd. apply elem_of_app in Hd as [?|Hd]; [by left | right].
      apply list_elem_of_singleton in Hd. by subst d.
    + subst s1. by apply sse_wf.
    + subst; simpl. rewrite fmap_app. apply elem_of_app. right. by left.
  - unfold announce; simpl. intros Hd. left. revert d Hd.
    apply (forEach_preserves connections _
             (fun a => inv a /\ forall x, x ∈ connections a -> x ∈ connections s));
      [|by split].
    intros c a [Ha Hsub] Hc. destruct (negb _); [|done].
    split; [apply sseSend_inv; [done | by apply registered_res]|].
    intros x Hx. apply Hsub. eapply sseSend_no_growth; [apply Ha| |done].
    by apply registered_res.
  - unfold signal.
    match goal with |- context [forEach ?arr ?f ?a0] =>
      pose proof (forEach_preserves arr f
        (fun a => inv (fst a) /\ forall x, x ∈ connections (fst a) -> x ∈ connections s)) as H;
      destruct (forEach arr f a0) as [s' result] eqn:E end.
    simpl. intros Hd. left. revert d Hd.
    change s' with (fst (s', result)). rewrite <- E. apply H; [|by split].
    intros c a [Ha Hsub] Hc. destruct (String.eqb _ _); [|done]. simpl.
    split; [apply sseSend_inv; [done | by apply registered_res]|].
    intros x Hx. apply Hsub. eapply sseSend_no_growth; [apply Ha| |done].
    by apply registered_res.
  - unfold interval_fires. intros Hd. left.
    destruct (intervals s !! r) as [p|] eqn:Hp; [|done].
    destruct Hinv as [Hwf _]. eapply sseSend_no_growth; [done| |done].
    destruct Hwf as (_ & _ & Hint & Hper & _). apply Hint.
    destruct (Hper r) as [H|H]; congruence.
  - rewrite (proj1 (client_closes_registries r s)). by left.
Qed.

(** A connection leaves the array only through a write on it that threw. *)
Lemma sseSend_tracked (d : connection) (r : nat) (data : JSON.jsval) (s : state) :
  r ∈ (res <$> connections s) -> tracked d s -> tracked d (sseSend throws r data s).
Proof.
  intros Hr (Hinv & Hd). split; [by apply sseSend_inv|].
  destruct Hinv as [(Hnd & _) _].
  destruct (throws r) eqn:Ht.
  - destruct (registered_lookup _ _ Hr) as (k & c & Hk & Hc).
    rewrite (sseSend_evicts throws r data s k c) by done. simpl.
    destruct Hd as [Hd|[chunk Hd]].
    + destruct (decide (d = c)) as [->|Hne].
      * right. exists (frame data). apply elem_of_app. right. rewrite Hc. left.
      * left. by apply (delete_registered _ k c Hnd Hk).
    + right. exists chunk. apply elem_of_app. by left.
  - rewrite sseSend_ok by done. simpl.
    destruct Hd as [Hd|[chunk Hd]]; [by left|].
    right. exists chunk. apply elem_of_app. by left.
Qed.

Lemma handle_tracked (q : request) (s : state) (d : connection) :
  inv s -> d ∈ connections s -> tracked d (handle throws q s).
Proof.
  intros Hinv Hd.
  assert (Htr : tracked d s) by (split; [done | by left]).
  destruct q as [u|body|u body|r|r]; simpl.
  - split; [by apply listen_inv|].
    unfold listen, sse.
    match goal with |- context [sseSend throws ?r0 ?p0 ?s0] =>
      assert (Hwf1 : wf s0) by (apply (sse_wf u s), Hinv);
      assert (Hreg : r0 ∈ (res <$> connections s0))
        by (simpl; rewrite fmap_app; apply elem_of_app; right; left);
      destruct (throws r0) eqn:Ht;
      [destruct (registered_lookup _ _ Hreg) as (k & c & Hk & Hc);
       rewrite (sseSend_evicts throws r0 p0 s0 k c) by (done || apply Hwf1);
       pose proof (proj2 (proj2 (delete_registered _ k c (proj1 Hwf1) Hk))) as Hmem
      |rewrite sseSend_ok by done]
    end; simpl in *.
    + left. apply Hmem. split; [apply elem_of_app; by left|].
      intros ->. destruct Hinv as [(_ & Hlt & _) _].
      pose proof (Hlt _ (registered_res _ _ Hd)). lia.
    + left. apply elem_of_app. by left.
  - unfold announce; simpl.
    apply (forEach_preserves connections _ (tracked d)); [|done].
    intros c a Ha Hc. destruct (negb _); [|done].
    apply sseSend_tracked; [by apply registered_res | done].
  - unfold signal.
    match goal with |- context [forEach ?arr ?f ?a0] =>
      pose proof (forEach_preserves arr f (fun x => tracked d (fst x))) as H;
      destruct (forEach arr f a0) as [s' result] eqn:E end.
    simpl. change s' with (fst (s', result)). rewrite <- E. apply H; [|done].
    intros c a Ha Hc. destruct (String.eqb _ _); [|done]. simpl.
    apply sseSend_tracked; [by apply registered_res | done].
  - unfold interval_fires.
    destruct (intervals s !! r) as [p|] eqn:Hp; [|done].
    apply sseSend_tracked; [|done].
    destruct Hinv as [(_ & _ & Hint & Hper & _) _]. apply Hint.
    destruct (Hper r) as [H|H]; congruence.
  - split; [by apply client_closes_inv|]. left.
    by rewrite (proj1 (client_closes_registries r s)).
Qed.

End Membership.

(** ** The fan-out of [announce] and [signal] *)

Section FanOut.
Import Rendezvous.
Variable throws : nat -> bool.

(** Both loops call their callback on the [visited] connections only. *)
Lemma announce_visited (body : JSON.jsval) (s : state) :
  NoDup (res <$> connections s) ->
  fst (announce throws body s)
  = foldl (fun s c => announce_callback throws body c s) s
      (visited (fun c => announce_to body c && throws (res c)) (connections s)).
Proof.
  intros Hnd. unfold announce; simpl.
  apply (forEach_visited connections (announce_callback throws body)); [|done].
  intros c a k Hnda Hk. unfold announce_callback.
  destruct (announce_to body c); simpl; [|done].
  destruct (throws (res c)) eqn:Ht.
  - by rewrite (sseSend_evicts throws _ _ a k c).
  - by rewrite sseSend_ok.
Qed.

Lemma signal_visited (u : string) (body : JSON.jsval) (s : state) :
  NoDup (res <$> connections s) ->
  signal throws u body s
  = let a := foldl (fun a c => signal_callback throws u body c a) (s, false)
               (visited (fun c => signal_to u c && throws (res c)) (connections s)) in
    (fst a, if snd a then 200 else 404).
Proof.
  intros Hnd. unfold signal.
  rewrite (forEach_visited (fun a : state * bool => connections (fst a))
             (signal_callback throws u body)
             (fun c => signal_to u c && throws (res c))); [|..|done].
  - simpl. by destruct (foldl _ _ _).
  - intros c a k Hnda Hk. unfold signal_callback.
    destruct (signal_to u c); simpl; [|done].
    destruct (throws (res c)) eqn:Ht.
    + by rewrite (sseSend_evicts throws _ _ (fst a) k c).
    + by rewrite sseSend_ok.
Qed.

Lemma signal_fold_result (u : string) (body : JSON.jsval)
    (l : list connection) (a : state * bool) :
  snd (foldl (fun a c => signal_callback throws u body c a) a l)
  = snd a || existsb (signal_to u) l.
Proof.
  revert a. induction l as [|c l IH]; intros a; simpl.
  - by rewrite orb_false_r.
  - rewrite IH. unfold signal_callback.
    destruct (signal_to u c); simpl; [by rewrite orb_true_r | done].
Qed.

(** The status of [signal] is 200 exactly when some registered connection
    listens under the target uuid, whatever fails. *)
Lemma signal_status (u : string) (body : JSON.jsval) (s : state) :
  NoDup (res <$> connections s) ->
  snd (signal throws u body s)
  = if existsb (signal_to u) (connections s) then 200 else 404.
Proof.
  intros Hnd. rewrite signal_visited by done. simpl.
  rewrite signal_fold_result. simpl.
  rewrite visited_existsb; [done|].
  intros c Hc. by apply andb_true_iff in Hc as [? _].
Qed.

Lemma announce_status (body : JSON.jsval) (s : state) :
  snd (announce throws body s) = 200.
Proof. done. Qed.

Lemma deliveries_cons (packet : JSON.jsval) (sel : connection -> bool)
    (c : connection) (l : list connection) :
  deliveries packet sel (c :: l)
  = (if sel c then [Write (res c) (frame packet)] else []) ++ deliveries packet sel l.
Proof.
  unfold deliveries. rewrite filter_cons. destruct (sel c) eqn:E.
  - by rewrite decide_True.
  - by rewrite decide_False.
Qed.

(** When no write to a selected connection fails, the frame reaches every
    selected connection, in registration order, and nothing else changes. *)
Lemma signal_fold_delivers (u : string) (body : JSON.jsval)
    (l : list connection) (a : state * bool) :
  (forall c, c ∈ l -> signal_to u c = true -> throws (res c) = false) ->
  fst (foldl (fun a c => signal_callback throws u body c a) a l)
  = {| connections := connections (fst a); intervals := intervals (fst a);
       wire := wire (fst a) ++ deliveries (signal_packet body) (signal_to u) l;
       next_res := next_res (fst a) |}.
Proof.
  revert a. induction l as [|c l IH]; intros a Hok; simpl.
  - unfold deliveries. simpl. rewrite app_nil_r. by destruct a as [[] ?].
  - rewrite IH by (intros; apply Hok; [by right | done]).
    rewrite deliveries_cons. unfold signal_callback.
    destruct (signal_to u c) eqn:Hsel; simpl; [|done].
    rewrite sseSend_ok by (apply Hok; [left | done]). simpl.
    by rewrite <- app_assoc.
Qed.

Lemma signal_delivers_without_failure (u : string) (body : JSON.jsval) (s : state) :
  NoDup (res <$> connections s) ->
  (forall c, c ∈ connections s -> signal_to u c = true -> throws (res c) = false) ->
  fst (signal throws u body s)
  = {| connections := connections s; intervals := intervals s;
       wire := wire s ++ deliveries (signal_packet body) (signal_to u) (connections s);
       next_res := next_res s |}.
Proof.
  intros Hnd Hok. rewrite signal_visited by done. simpl.
  rewrite visited_all.
  - by rewrite signal_fold_delivers.
  - intros c Hc. destruct (signal_to u c) eqn:Hsel; [|done].
    simpl. by apply Hok.
Qed.

Lemma announce_fold_delivers (body : JSON.jsval) (l : list connection) (s : state) :
  (forall c, c ∈ l -> announce_to body c = true -> throws (res c) = false) ->
  foldl (fun s c => announce_callback throws body c s) s l
  = {| connections := connections s; intervals := intervals s;
       wire := wire s ++ deliveries (announce_packet body) (announce_to body) l;
       next_res := next_res s |}.
Proof.
  revert s. induction l as [|c l IH]; intros s Hok; simpl.
  - unfold deliveries. simpl. rewrite app_nil_r. by destruct s.
  - rewrite IH by (intros; apply Hok; [by right | done]).
    rewrite deliveries_cons. unfold announce_callback.
    destruct (announce_to body c) eqn:Hsel; simpl; [|done].
    rewrite sseSend_ok by (apply Hok; [left | done]). simpl.
    by rewrite <- app_assoc.
Qed.

Lemma announce_delivers_without_failure (body : JSON.jsval) (s : state) :
  NoDup (res <$> connections s) ->
  (forall c, c ∈ connections s -> announce_to body c = true -> throws (res c) = false) ->
  fst (announce throws body s)
  = {| connections := connections s; intervals := intervals s;
       wire := wire s ++ deliveries (announce_packet body) (announce_to body) (connections s);
       next_res := next_res s |}.
Proof.
  intros Hnd Hok. rewrite announce_visited by done.
  rewrite visited_all.
  - by rewrite announce_fold_delivers.
  - intros c Hc. destruct (announce_to body c) eqn:Hsel; [|done].
    simpl. by apply Hok.
Qed.

End FanOut.

(** ** Claims on the signaling registry *)

Section RegistryClaims.
Import Rendezvous.

(** C3.  In every state the server can reach: a [listen] request opens a
    stream on which nothing was written before, writes the [accept] frame
    as its first chunk and starts a timer of 5000 ms for it; every
    registered connection has [accept] as the first chunk of its stream
    and a live 5000 ms timer, each firing of which writes a [ping] frame
    on that stream; and no stream ever starts with anything but [accept].
    The [accept] frame is the event whose data is the object with the one
    member [type], of value [accept], followed by an empty line, and the
    [ping] frame is the same with the value [ping]. *)
Theorem listen_accept_first_then_ping (s : state) :
  reachable s ->
  (forall throws u,
      let r := next_res s in
      let s' := listen throws u s in
      chunks_of r (wire s) = []
      /\ (throws r = false ->
          chunks_of r (wire s') = [frame accept_packet]
          /\ intervals s' !! r = Some 5000
          /\ {| uuid := u; res := r |} ∈ connections s'))
  /\ (forall c, c ∈ connections s ->
        head (chunks_of (res c) (wire s)) = Some (frame accept_packet)
        /\ intervals s !! res c = Some 5000
        /\ forall throws, throws (res c) = false ->
             wire (interval_fires throws (res c) s)
             = wire s ++ [Write (res c) (frame ping_packet)])
  /\ (forall r,
        head (chunks_of r (wire s)) = None
        \/ head (chunks_of r (wire s)) = Some (frame accept_packet))
  /\ frame accept_packet
     = "data: {" +:+ String "034" ("type" +:+ String "034" (":" +:+ String "034"
       ("accept" +:+ String "034" ("}" +:+ String "010" (String "010" EmptyString)))))
  /\ frame ping_packet
     = "data: {" +:+ String "034" ("type" +:+ String "034" (":" +:+ String "034"
       ("ping" +:+ String "034" ("}" +:+ String "010" (String "010" EmptyString))))).
Proof.
  intros Hreach. destruct (reachable_inv s Hreach) as [Hwf Hacc].
  split; [|split; [|split; [|split; reflexivity]]].
  - intros throws u r s'. split; [by apply fresh_silent|].
    intros Hok. subst s' r. unfold listen, sse.
    rewrite sseSend_ok by done. simpl.
    rewrite !chunks_of_app, chunks_of_write, Nat.eqb_refl.
    rewrite fresh_silent by done. simpl.
    split; [done|]. split; [by rewrite lookup_insert_eq|].
    apply elem_of_app. right. by left.
  - intros c Hc. apply registered_res in Hc.
    destruct (Hacc (res c)) as [H|[_ H]]; [|done].
    destruct Hwf as (_ & _ & Hint & _).
    pose proof (proj1 (Hint (res c)) Hc) as Hlive.
    split; [done|]. split; [done|].
    intros throws Hok. unfold interval_fires. rewrite Hlive.
    by rewrite sseSend_ok.
  - intros r. destruct (Hacc r) as [H|[H _]]; [by right | left]. by rewrite H.
Qed.

Lemma listen_accept_first_then_ping_witness :
  head (chunks_of 0 (wire (listen Scenario.healthy "a" init)))
  = Some ("data: {" +:+ String "034" ("type" +:+ String "034" (":" +:+ String "034"
       ("accept" +:+ String "034" ("}" +:+ String "010" (String "010" EmptyString))))))
  /\ intervals (listen Scenario.healthy "a" init) !! 0%nat = Some 5000
  /\ wire (interval_fires Scenario.healthy 0 (listen Scenario.healthy "a" init))
     = wire (listen Scenario.healthy "a" init)
       ++ [Write 0 ("data: {" +:+ String "034" ("type" +:+ String "034" (":" +:+ String "034"
       ("ping" +:+ String "034" ("}" +:+ String "010" (String "010" EmptyString))))))].
Proof.
  assert (Hreach : reachable (listen Scenario.healthy "a" init)).
  { apply (reachable_handle Scenario.healthy (Listen "a")), reachable_init. }
  destruct (listen_accept_first_then_ping _ Hreach) as (_ & H & _ & Haccept & Hping).
  destruct (H {| uuid := "a"; res := 0 |}) as (H1 & H2 & H3).
  - vm_compute. left.
  - rewrite <- Haccept, <- Hping.
    split; [exact H1|]. split; [exact H2|]. by apply (H3 Scenario.healthy).
Defined.

(** X22.  A write that throws.  In every state the server can reach, a
    send whose [write] throws on a registered connection removes that
    connection and cancels its timer, changes neither the membership nor
    the timer of any other connection and puts nothing on any stream; a
    timer firing is such a send.  After any request, timer firing or
    client going away, no response on which a write threw is
    registered or has a timer; a connection whose own write does not fail
    stays registered with its timer; and a connection that is no longer
    registered is one on which a write threw.  The status a request
    answers does not depend on which writes fail. *)
Theorem send_failure_evicts_that_connection_only (s : state) :
  reachable s ->
  (forall throws r data,
      r ∈ (res <$> connections s) -> throws r = true ->
      let s' := sseSend throws r data s in
      (r ∉ (res <$> connections s'))
      /\ intervals s' !! r = None
      /\ (forall d, res d <> r -> (d ∈ connections s' <-> d ∈ connections s))
      /\ (forall r', r' <> r -> intervals s' !! r' = intervals s !! r')
      /\ (forall r', chunks_of r' (wire s') = chunks_of r' (wire s))
      /\ interval_fires throws r s = sseSend throws r ping_packet s)
  /\ (forall throws q,
        let s' := handle throws q s in
        (forall r chunk, WriteThrew r chunk ∈ wire s' ->
           (r ∉ (res <$> connections s')) /\ intervals s' !! r = None)
        /\ (forall d, d ∈ connections s -> throws (res d) = false ->
              d ∈ connections s' /\ intervals s' !! res d = Some 5000)
        /\ (forall d, d ∈ connections s -> d ∉ connections s' ->
              (exists chunk, WriteThrew (res d) chunk ∈ wire s')
              /\ throws (res d) = true
              /\ intervals s' !! res d = None))
  /\ (forall throws u body,
        snd (signal throws u body s) = snd (signal (fun _ => false) u body s)
        /\ snd (announce throws body s) = snd (announce (fun _ => false) body s)).
Proof.
  intros Hreach. pose proof (reachable_inv s Hreach) as Hinv.
  pose proof Hinv as [Hwf _]. pose proof Hwf as (Hnd & Hlt & Hint & Hper & _).
  split; [|split]; [| |intros throws u body; by rewrite !signal_status].
  - intros throws r data Hr Ht s'.
    destruct (registered_lookup _ _ Hr) as (k & c & Hk & Hc).
    subst s'. rewrite (sseSend_evicts throws r data s k c) by done. simpl.
    destruct (delete_registered _ k c Hnd Hk) as (_ & Hres & Hmem).
    split; [rewrite Hres; intros [_ ?]; congruence|].
    split; [by rewrite lookup_delete_eq|].
    split; [|split; [|split]].
    + intros d Hne. rewrite Hmem. split; [tauto|].
      intros Hd. split; [done|]. intros ->. congruence.
    + intros r' Hne. by rewrite lookup_delete_ne.
    + intros r'. by rewrite chunks_of_app, chunks_of_threw, app_nil_r.
    + unfold interval_fires. by rewrite (proj1 (Hint r) Hr).
  - intros throws q s'.
    destruct (handle_inv throws q s Hinv) as [(_ & _ & Hint' & Hper' & _ & Hthrew') _].
    fold s' in Hint', Hper', Hthrew'.
    assert (Hgone : forall r chunk, WriteThrew r chunk ∈ wire s' ->
              (r ∉ (res <$> connections s')) /\ intervals s' !! r = None).
    { intros r chunk Hin. destruct (Hthrew' r chunk Hin) as [Hout _].
      split; [done|]. destruct (Hper' r) as [H|H]; [done|].
      by apply Hint' in H. }
    split; [done|]. split.
    + intros d Hd Hok.
      pose proof (handle_keeps throws q s d Hinv Hd Hok) as Hd'.
      split; [done|]. by apply Hint', registered_res.
    + intros d Hd Hout.
      destruct (handle_tracked throws q s d Hinv Hd) as [_ [?|[chunk Hin]]]; [done|].
      split; [by exists chunk|].
      split; [|by apply (Hgone _ chunk)].
      destruct (throws (res d)) eqn:Ht; [done|].
      exfalso. by apply Hout, handle_keeps.
Qed.

Lemma send_failure_evicts_that_connection_only_witness :
  (0%nat ∉ (res <$> connections
              (sseSend Scenario.first_fails 0 ping_packet (Scenario.listeners "a" "b"))))
  /\ intervals (sseSend Scenario.first_fails 0 ping_packet (Scenario.listeners "a" "b"))
       !! 0%nat = None
  /\ {| uuid := "b"; res := 1 |}
     ∈ connections (sseSend Scenario.first_fails 0 ping_packet (Scenario.listeners "a" "b")).
Proof.
  assert (Hreach : reachable (Scenario.listeners "a" "b")).
  { apply (reachable_handle Scenario.healthy (Listen "b")).
    apply (reachable_handle Scenario.healthy (Listen "a")), reachable_init. }
  destruct (send_failure_evicts_that_connection_only _ Hreach) as (H & _).
  destruct (H Scenario.first_fails 0%nat ping_packet) as (H1 & H2 & H3 & _).
  - vm_compute. left.
  - reflexivity.
  - split; [exact H1|]. split; [exact H2|].
    apply H3; [discriminate|]. vm_compute. right. left.
Defined.

Lemma abandoned_state (n : nat) :
  Scenario.abandoned n
  = {| connections := [{| uuid := "a"; res := 0 |}];
       intervals := <[0%nat := 5000]> ∅;
       wire := [WriteHead 0 200 sse_headers; Write 0 (frame accept_packet); ClientClosed 0]
               ++ replicate n (Write 0 (frame ping_packet));
       next_res := 1 |}.
Proof.
  unfold Scenario.abandoned. induction n as [|n IH]; [done|].
  rewrite Nat.iter_succ, IH. unfold handle, interval_fires. cbn [intervals].
  rewrite lookup_insert_eq. unfold sseSend, Scenario.healthy.
  cbn [connections intervals wire next_res].
  by rewrite <- app_assoc, <- replicate_S_end.
Qed.

Lemma delivered_closed (r : nat) (w1 w2 : list output) :
  delivered r (w1 ++ ClientClosed r :: w2) = delivered r w1.
Proof.
  induction w1 as [|[r' st hd|r' ch|r' ch|r'] w1 IH]; simpl.
  - by rewrite Nat.eqb_refl.
  - done.
  - destruct (Nat.eqb r' r); by rewrite IH.
  - done.
  - by destruct (Nat.eqb r' r).
Qed.

(** C4, at the failing input.  A client listens and goes away.  A write
    on its response returns and does not throw, so no send to it reaches
    the [catch]: however often its timer has fired since, the connection
    is still registered and its timer is still live, every ping was
    written after the client had gone and none reached it, no write is on
    record as having thrown, a signal to the listener that is gone is
    answered 200 and evicts nothing, and the next firing writes one more
    ping and leaves the connection and the timer where they are. *)
Theorem closed_connection_is_never_evicted (n : nat) :
  let s := Scenario.abandoned n in
  reachable s
  /\ connections s = [{| uuid := "a"; res := 0 |}]
  /\ intervals s !! 0%nat = Some 5000
  /\ wire s
     = [WriteHead 0 200 sse_headers; Write 0 (frame accept_packet); ClientClosed 0]
       ++ replicate n (Write 0 (frame ping_packet))
  /\ delivered 0 (wire s) = [frame accept_packet]
  /\ (forall r chunk, WriteThrew r chunk ∉ wire s)
  /\ signal Scenario.healthy "a" Scenario.signal_body s
     = ({| connections := connections s;
           intervals := intervals s;
           wire := wire s ++ [Write 0 (frame (signal_packet Scenario.signal_body))];
           next_res := next_res s |}, 200)
  /\ handle Scenario.healthy (IntervalFires 0) s = Scenario.abandoned (S n).
Proof.
  cbv zeta. split; [|rewrite (abandoned_state n); cbn [connections intervals wire next_res]].
  - unfold Scenario.abandoned. induction n as [|n IH].
    + do 2 apply reachable_handle. apply reachable_init.
    + rewrite Nat.iter_succ. by apply reachable_handle.
  - split; [done|]. split; [by rewrite lookup_insert_eq|]. split; [done|].
    split; [|split; [|split]].
    + change ([WriteHead 0 200 sse_headers; Write 0 (frame accept_packet); ClientClosed 0]
              ++ replicate n (Write 0 (frame ping_packet)))
        with ([WriteHead 0 200 sse_headers; Write 0 (frame accept_packet)]
              ++ ClientClosed 0 :: replicate n (Write 0 (frame ping_packet))).
      by rewrite delivered_closed.
    + intros r chunk [Hin|Hin]%elem_of_app.
      * repeat (apply elem_of_cons in Hin as [Hin|Hin]; [done|]).
        by apply elem_of_nil in Hin.
      * by apply elem_of_replicate in Hin as [? _].
    + done.
    + rewrite <- (abandoned_state n). unfold Scenario.abandoned.
      by rewrite Nat.iter_succ.
Qed.

(** C10.  Eviction is not idempotent.  Once a failing send has removed a
    connection, [indexOf] no longer finds it and answers -1, and a second
    failing send on the same connection splices at -1: it removes the
    last (most recently added) connection of the array, which is another
    connection, instead of leaving the array as it is. *)
Theorem second_eviction_removes_last
    (throws : nat -> bool) (s : state) (r : nat) (data data' : JSON.jsval) :
  NoDup (res <$> connections s) ->
  r ∈ (res <$> connections s) ->
  throws r = true ->
  let s1 := sseSend throws r data s in
  let s2 := sseSend throws r data' s1 in
  (r ∉ (res <$> connections s1))
  /\ indexOf (connections s1) r = -1
  /\ connections s2 = take (length (connections s1) - 1) (connections s1)
  /\ forall c, last (connections s1) = Some c ->
       connections s1 = connections s2 ++ [c]
       /\ (c ∉ connections s2)
       /\ res c <> r.
Proof.
  intros Hnd Hr Ht s1 s2.
  destruct (registered_lookup _ _ Hr) as (k & c0 & Hk & Hc0).
  assert (Hs1 : connections s1 = delete k (connections s)).
  { subst s1. by rewrite (sseSend_evicts throws r data s k c0). }
  destruct (delete_registered _ k c0 Hnd Hk) as (Hnd1 & Hres & _).
  rewrite <- Hs1 in Hnd1, Hres.
  assert (Habs : r ∉ (res <$> connections s1)).
  { rewrite Hres. intros [_ ?]. congruence. }
  assert (Hs2 : connections s2 = take (length (connections s1) - 1) (connections s1)).
  { subst s2. by rewrite sseSend_absent. }
  split; [done|]. split; [by apply indexOf_from_absent|]. split; [done|].
  intros c Hlast. apply last_Some in Hlast as [l' Hl'].
  assert (Hl2 : connections s2 = l').
  { rewrite Hs2, Hl', length_app. simpl.
    replace (length l' + 1 - 1)%nat with (length l') by lia.
    apply take_app_length. }
  rewrite Hl2. split; [done|].
  rewrite Hl', fmap_app in Hnd1. apply NoDup_app in Hnd1 as (_ & Hdisj & _).
  split.
  - intros Hin. apply (Hdisj (res c)); [by apply registered_res | by left].
  - intros Heq. apply Habs. rewrite Hl', fmap_app, <- Heq.
    apply elem_of_app. right. by left.
Qed.

Lemma second_eviction_removes_last_witness :
  connections (Scenario.listeners "a" "b")
  = [{| uuid := "a"; res := 0 |}; {| uuid := "b"; res := 1 |}]
  /\ connections (sseSend Scenario.first_fails 0 ping_packet (Scenario.listeners "a" "b"))
     = [{| uuid := "b"; res := 1 |}]
  /\ connections
       (sseSend Scenario.first_fails 0 ping_packet
          (sseSend Scenario.first_fails 0 ping_packet (Scenario.listeners "a" "b")))
     = [].
Proof.
  split; [reflexivity|]. split; [reflexivity|].
  destruct (second_eviction_removes_last Scenario.first_fails
              (Scenario.listeners "a" "b") 0 ping_packet ping_packet)
    as (_ & _ & H & _).
  - vm_compute. apply NoDup_cons. split; [by intros ?%list_elem_of_singleton|].
    apply NoDup_singleton.
  - vm_compute. left.
  - reflexivity.
  - exact H.
Defined.

End RegistryClaims.

Section FanOutClaims.
Import Rendezvous.

(** An announce writes nothing on a stream registered under the
    announcer's own uuid, whatever fails. *)
Lemma announce_never_to_self (throws : nat -> bool) (body : JSON.jsval)
    (s : state) (r : nat) :
  inv s ->
  (forall c, c ∈ connections s -> res c = r -> announce_to body c = false) ->
  chunks_of r (wire (fst (announce throws body s))) = chunks_of r (wire s).
Proof.
  intros Hinv Hself. unfold announce; simpl.
  apply (forEach_preserves connections _
           (fun a => inv a
                     /\ (forall x, x ∈ connections a -> x ∈ connections s)
                     /\ chunks_of r (wire a) = chunks_of r (wire s))); [|done].
  intros c a (Ha & Hsub & Hw) Hc.
  destruct (negb _) eqn:Hto; [|done].
  pose proof (registered_res _ _ Hc) as Hreg.
  split; [by apply sseSend_inv|].
  split; [intros x Hx; eapply Hsub, sseSend_no_growth; [apply Ha|done..]|].
  destruct (throws (res c)) eqn:Ht.
  - destruct Ha as [(Hnd & _) _].
    destruct (registered_lookup _ _ Hreg) as (k & c' & Hk & Hc').
    rewrite (sseSend_evicts throws _ _ a k c') by done. simpl.
    by rewrite chunks_of_app, chunks_of_threw, app_nil_r.
  - rewrite sseSend_ok by done. simpl.
    rewrite chunks_of_app, chunks_of_write, Hw.
    destruct (Nat.eqb_spec (res c) r) as [Heq|_]; [|by rewrite app_nil_r].
    unfold announce_to in Hself.
    rewrite (Hself c (Hsub c Hc) Heq) in Hto. done.
Qed.

(** C1, at the failing input.  Two connections listen under "X" and the
    write to the first one throws: the first is evicted, the second moves
    into its index and is never visited.  The only write of the request
    is the one that threw; the request answers 200, the second connection
    is still registered under "X", and its stream holds the [accept]
    frame only: the signal never reached it.  With no failure the same
    request reaches both. *)
Theorem signal_skips_listener_after_eviction :
  connections (Scenario.listeners "X" "X")
  = [{| uuid := "X"; res := 0 |}; {| uuid := "X"; res := 1 |}]
  /\ snd Scenario.signal_first_fails = 200
  /\ wire (fst Scenario.signal_first_fails)
     = wire (Scenario.listeners "X" "X")
       ++ [WriteThrew 0 (frame (signal_packet Scenario.signal_body))]
  /\ connections (fst Scenario.signal_first_fails) = [{| uuid := "X"; res := 1 |}]
  /\ chunks_of 1 (wire (fst Scenario.signal_first_fails)) = [frame accept_packet]
  /\ chunks_of 1 (wire (fst (signal Scenario.healthy "X" Scenario.signal_body
                               (Scenario.listeners "X" "X"))))
     = [frame accept_packet; frame (signal_packet Scenario.signal_body)].
Proof. repeat split; reflexivity. Qed.

(** C2, at the failing input.  "B" and "C" listen, "A" announces and the
    write to "B" throws: "B" is evicted, "C" moves into its index and is
    never visited.  The only write of the request is the one that threw;
    the request answers 200, "C" is still registered, and its stream
    holds the [accept] frame only: the announce never reached it.  With
    no failure the same request reaches both. *)
Theorem announce_skips_listener_after_eviction :
  connections (Scenario.listeners "B" "C")
  = [{| uuid := "B"; res := 0 |}; {| uuid := "C"; res := 1 |}]
  /\ snd Scenario.announce_first_fails = 200
  /\ wire (fst Scenario.announce_first_fails)
     = wire (Scenario.listeners "B" "C")
       ++ [WriteThrew 0 (frame (announce_packet Scenario.announce_body))]
  /\ connections (fst Scenario.announce_first_fails) = [{| uuid := "C"; res := 1 |}]
  /\ chunks_of 1 (wire (fst Scenario.announce_first_fails)) = [frame accept_packet]
  /\ chunks_of 1 (wire (fst (announce Scenario.healthy Scenario.announce_body
                               (Scenario.listeners "B" "C"))))
     = [frame accept_packet; frame (announce_packet Scenario.announce_body)].
Proof. repeat split; reflexivity. Qed.

End FanOutClaims.

(** ** Claims on the live-reload broadcast *)

Section ReloadClaims.
Import Reload.

Lemma forEach_broadcast (l : list client) (s : state) :
  forEach l
    (fun client s =>
       if readyState client =? OPEN
       then bind (send client "update" s)
                 (send client (JSON.to_text (JSON.stringify update_packet)))
       else Ok s) s
  = Ok {| clients := clients s; sent := sent s ++ concat (reload_messages <$> l) |}.
Proof.
  revert s. induction l as [|c l IH]; intros s; simpl.
  - rewrite app_nil_r. by destruct s.
  - unfold reload_messages at 1, send.
    destruct (readyState c =? OPEN) eqn:Hopen; simpl.
    + rewrite IH. simpl. by rewrite <- !app_assoc.
    + by rewrite IH.
Qed.

Lemma onProcessingComplete_spec (s : state) :
  onProcessingComplete s
  = Ok {| clients := clients s;
          sent := sent s ++ concat (reload_messages <$> clients s) |}.
Proof. apply forEach_broadcast. Qed.

Lemma sent_to_app (k : nat) (l1 l2 : list (nat * string)) :
  sent_to k (l1 ++ l2) = sent_to k l1 ++ sent_to k l2.
Proof. apply omap_app. Qed.

Lemma sent_to_other (k : nat) (c : client) :
  socket c <> k -> sent_to k (reload_messages c) = [].
Proof.
  intros Hne. unfold reload_messages.
  destruct (readyState c =? OPEN); [|done]. unfold sent_to; simpl.
  by destruct (Nat.eqb_spec (socket c) k).
Qed.

Lemma sent_to_own (c : client) :
  sent_to (socket c) (reload_messages c) = snd <$> reload_messages c.
Proof.
  unfold reload_messages.
  destruct (readyState c =? OPEN); [|done]. unfold sent_to; simpl.
  by rewrite Nat.eqb_refl.
Qed.

(** With one entry per socket, what a broadcast hands to a registered
    client is that client's own share. *)
Lemma sent_to_broadcast (l : list client) (c : client) :
  NoDup (socket <$> l) -> c ∈ l ->
  sent_to (socket c) (concat (reload_messages <$> l)) = snd <$> reload_messages c.
Proof.
  induction l as [|d l IH]; intros Hnd Hc; [by apply elem_of_nil in Hc|].
  rewrite fmap_cons in Hnd. apply NoDup_cons in Hnd as [Hd Hnd].
  rewrite fmap_cons. simpl. rewrite sent_to_app.
  apply elem_of_cons in Hc as [->|Hc].
  - rewrite sent_to_own.
    replace (sent_to (socket d) (concat (reload_messages <$> l))) with (@nil string);
      [by rewrite app_nil_r|].
    clear IH Hnd. induction l as [|e l IH]; [done|].
    rewrite fmap_cons in Hd. apply not_elem_of_cons in Hd as [Hne Hd].
    rewrite fmap_cons. simpl. rewrite sent_to_app, sent_to_other by done.
    by apply IH.
  - rewrite sent_to_other, IH; [done..|].
    intros Heq. apply Hd. rewrite Heq. apply list_elem_of_fmap. eauto.
Qed.


(** C9.  On a settle event every registered open client is handed exactly
    two messages: first the string [update], then the text
    [{"type":"update"}]. *)
Theorem reload_sends_two_messages (s : state) :
  NoDup (socket <$> clients s) ->
  exists s' new,
    onProcessingComplete s = Ok s'
    /\ sent s' = sent s ++ new
    /\ forall c, c ∈ clients s -> readyState c = OPEN ->
         sent_to (socket c) new
         = ["update";
            "{" +:+ JSON.dquote +:+ "type" +:+ JSON.dquote +:+ ":"
                +:+ JSON.dquote +:+ "update" +:+ JSON.dquote +:+ "}"].
Proof.
  intros Hnd. eexists _, _. split; [apply onProcessingComplete_spec|].
  simpl. split; [done|].
  intros c Hc Hopen. rewrite sent_to_broadcast by done.
  unfold reload_messages. by rewrite Hopen.
Qed.

(** C6, as amended.  A settle event never fails and drops nobody: the
    registered set after the broadcast is the registered set before it,
    and a client that does not report itself open is only skipped. *)
Theorem reload_broadcast_keeps_registry (s : state) :
  exists s',
    onProcessingComplete s = Ok s'
    /\ clients s' = clients s
    /\ sent s' = sent s ++ concat (reload_messages <$> clients s)
    /\ forall c, readyState c <> OPEN -> reload_messages c = [].
Proof.
  eexists. split; [apply onProcessingComplete_spec|]. simpl.
  split; [done|]. split; [done|].
  intros c Hc. unfold reload_messages.
  by destruct (Z.eqb_spec (readyState c) OPEN).
Qed.


Lemma reload_sends_two_messages_witness :
  exists s' new,
    onProcessingComplete Scenario.closed_and_open = Ok s'
    /\ sent s' = sent Scenario.closed_and_open ++ new
    /\ forall c, c ∈ clients Scenario.closed_and_open -> readyState c = OPEN ->
         sent_to (socket c) new
         = ["update";
            "{" +:+ JSON.dquote +:+ "type" +:+ JSON.dquote +:+ ":"
                +:+ JSON.dquote +:+ "update" +:+ JSON.dquote +:+ "}"].
Proof.
  apply (reload_sends_two_messages Scenario.closed_and_open).
  vm_compute. apply NoDup_cons. split; [by intros ?%list_elem_of_singleton|].
  apply NoDup_singleton.
Defined.

(** C6 as stated fails: a registered client whose transport reports
    itself closed is still registered after the broadcast. *)
Lemma closed_client_stays_registered :
  readyState Scenario.closed_client = CLOSED
  /\ Scenario.closed_client ∈ clients Scenario.closed_only
  /\ exists s', onProcessingComplete Scenario.closed_only = Ok s'
               /\ Scenario.closed_client ∈ clients s'.
Proof.
  split; [reflexivity|]. split; [left|].
  eexists. split; [reflexivity|]. left.
Qed.

End ReloadClaims.

(** ** Claims on server start-up *)

Section StartupClaims.
Import Startup.

Lemma resolvePort_total (E : env) (port : JSON.jsval) :
  resolvePort E port = ([], Ok (resolved E port)).
Proof.
  unfold resolvePort, resolved.
  destruct (truthy port); simpl; [done|].
  by destruct (getPortPromise E).
Qed.

(** The two ways a start-up can go: it stops on an exception before the
    ready event and before [listen]; or the scan succeeded and the run
    ends with the ready event followed by [listen], neither having
    occurred before. *)
Lemma startServer_shape (E : env) (port : JSON.jsval) :
  (exists t e,
      startServer E port = (t, Throw e)
      /\ existsb is_listen t = false /\ existsb is_ready t = false)
  \/ (startServer E port
        = (preparation (watch E)
             ++ [Emit "preview:ready" (resolved E port);
                 ServerListen (resolved E port)],
           server_events E)
      /\ initialMappingsReady E = Ok tt
      /\ existsb is_listen (preparation (watch E)) = false
      /\ existsb is_ready (preparation (watch E)) = false).
Proof.
  unfold startServer. rewrite resolvePort_total.
  destruct E as [gp scan w npm ecs api pe ev]; simpl.
  destruct scan as [[]|e]; simpl; [|left; by eexists _, _].
  destruct (pe npm); simpl; [|destruct w; left; by eexists _, _].
  destruct (pe ecs) eqn:Hecs; simpl.
  - rewrite Hecs; simpl. right. by destruct w.
  - destruct (pe api); simpl; [|destruct w; left; by eexists _, _].
    right. by destruct w.
Qed.

(** C8.  Port resolution always yields a port, without any effect: the
    caller's port when it is a port (a truthy value; [undefined] and 0
    are not), else the port the free-port pool delivers, else 2044.  The
    port the server is told to listen on is that port. *)
Theorem port_resolution_never_fails (E : env) (port : JSON.jsval) :
  exists p,
    resolvePort E port = ([], Ok p)
    /\ (truthy port = true -> p = port)
    /\ (forall n, truthy port = false -> getPortPromise E = Ok n -> p = JSON.JNum n)
    /\ (forall e, truthy port = false -> getPortPromise E = Throw e -> p = JSON.JNum 2044)
    /\ (forall n, n <> 0 -> truthy (JSON.JNum n) = true)
    /\ truthy JSON.JUndefined = false
    /\ forall p', ServerListen p' ∈ fst (startServer E port) -> p' = p.
Proof.
  exists (resolved E port). split; [apply resolvePort_total|].
  unfold resolved.
  split; [by intros ->|]. split; [by intros n -> ->|]. split; [by intros e -> ->|].
  split; [intros n Hn; simpl; by destruct (Z.eqb_spec n 0)|]. split; [done|].
  intros p' Hin.
  destruct (startServer_shape E port) as [(t & e & Heq & Hl & _)|(Heq & _ & Hl & _)];
    rewrite Heq in Hin; cbn [fst] in Hin.
  - exfalso. rewrite <- Bool.not_true_iff_false in Hl. apply Hl.
    apply existsb_exists. exists (ServerListen p'). split; [|done].
    by apply list_elem_of_In.
  - apply elem_of_app in Hin as [Hin|Hin].
    + exfalso. rewrite <- Bool.not_true_iff_false in Hl. apply Hl.
      apply existsb_exists. exists (ServerListen p'). split; [|done].
      by apply list_elem_of_In.
    + apply elem_of_cons in Hin as [Hin|Hin]; [done|].
      apply list_elem_of_singleton in Hin. by injection Hin as ->.
Qed.

(** A failing initial scan is fatal: the run ends with the scan's error
    and the server is never told to listen, nor is the ready event emitted. *)
Lemma scan_failure_is_fatal (E : env) (port : JSON.jsval) (e : error) :
  initialMappingsReady E = Throw e ->
  startServer E port
  = ([NewWatcher; PushOnProcessingComplete;
      SpinnerCreate "Hashing files"; SpinnerFail "Hashing files"],
     Throw e).
Proof.
  intros Hscan. unfold startServer. rewrite resolvePort_total.
  destruct E as [gp scan w npm ecs api pe ev]; simpl in *. by subst scan.
Qed.

(** The server is told to listen only after the initial scan succeeded. *)
Lemma listen_only_after_scan (E : env) (port p : JSON.jsval) :
  ServerListen p ∈ fst (startServer E port) -> initialMappingsReady E = Ok tt.
Proof.
  intros Hin.
  destruct (startServer_shape E port) as [(t & e & Heq & Hl & _)|(_ & Hscan & _)];
    [|done].
  rewrite Heq in Hin; cbn [fst] in Hin.
  exfalso. rewrite <- Bool.not_true_iff_false in Hl. apply Hl.
  apply existsb_exists. exists (ServerListen p). split; [|done].
  by apply list_elem_of_In.
Qed.

(** The ready event is emitted at most once, with the resolved port, and
    always before the server is told to listen: when it is emitted,
    [listen] has not been called yet. *)
Lemma ready_precedes_listen (E : env) (port : JSON.jsval) (ev : string) (p : JSON.jsval) :
  Emit ev p ∈ fst (startServer E port) ->
  fst (startServer E port)
  = preparation (watch E)
      ++ [Emit "preview:ready" (resolved E port); ServerListen (resolved E port)]
  /\ existsb is_listen (preparation (watch E)) = false
  /\ existsb is_ready (preparation (watch E)) = false.
Proof.
  intros Hin.
  destruct (startServer_shape E port) as [(t & e & Heq & _ & Hr)|(Heq & _ & Hl & Hr)].
  - rewrite Heq in Hin; cbn [fst] in Hin.
    exfalso. rewrite <- Bool.not_true_iff_false in Hr. apply Hr.
    apply existsb_exists. exists (Emit ev p). split; [|done].
    by apply list_elem_of_In.
  - by rewrite Heq.
Qed.

(** C7, at the failing input.  The port is held by another process: the
    scan succeeds, the ready event is emitted with port 8000, then the
    server is told to listen and fails.  The supervisor was told the
    server is ready although it never listens. *)
Theorem ready_emitted_before_listening :
  startServer Scenario.port_in_use (JSON.JNum 8000)
  = (preparation true
       ++ [Emit "preview:ready" (JSON.JNum 8000); ServerListen (JSON.JNum 8000)],
     Throw (ServerError "EADDRINUSE")).
Proof. reflexivity. Qed.

End StartupClaims.

(** * Further properties of the signaling rendezvous *)

Section VisitedShape.
Import Rendezvous.
Variable evicts : connection -> bool.

(** The connections a fan-out visits are among the registered ones, in
    their order. *)
Lemma visited_sublist_upto (n : nat) (l : list connection) :
  (length l <= n)%nat -> visited evicts l `sublist_of` l.
Proof.
  revert l. induction n as [|n IH]; intros l Hlen.
  - destruct l; [done | simpl in Hlen; lia].
  - destruct l as [|c [|d rest]]; simpl in *; [done | by destruct (evicts c) |].
    destruct (evicts c).
    + apply sublist_skip, sublist_cons, IH. lia.
    + apply sublist_skip, (IH (d :: rest)). simpl. lia.
Qed.

Lemma visited_sublist (l : list connection) : visited evicts l `sublist_of` l.
Proof. by apply (visited_sublist_upto (length l)). Qed.

Lemma visited_two (x y : connection) (l : list connection) :
  visited evicts (x :: y :: l)
  = x :: (if evicts x then visited evicts l else visited evicts (y :: l)).
Proof. done. Qed.

(** A connection is visited when it is the first of the array or when the
    connection just before it is not evicted. *)
Lemma visited_after_kept_upto (n : nat) (l1 l2 : list connection) (c : connection) :
  (length l1 <= n)%nat ->
  (l1 = [] \/ exists l0 d, l1 = l0 ++ [d] /\ evicts d = false) ->
  c ∈ visited evicts (l1 ++ c :: l2).
Proof.
  revert l1. induction n as [|n IH]; intros l1 Hlen Hprev.
  - destruct l1; [simpl; left | simpl in Hlen; lia].
  - destruct l1 as [|x [|y l1]].
    + simpl. left.
    + destruct Hprev as [?|(l0 & d & Heq & Hd)]; [done|].
      destruct l0 as [|? [|? ?]]; simplify_eq/=. rewrite Hd. right. left.
    + destruct Hprev as [?|(l0 & d & Heq & Hd)]; [done|].
      change ((x :: y :: l1) ++ c :: l2) with (x :: y :: (l1 ++ c :: l2)).
      rewrite visited_two. right.
      destruct (evicts x) eqn:Hx; destruct l0 as [|x0 [|y0 l0]]; simplify_eq/=.
      * apply (IH []); [simpl; lia | by left].
      * rewrite length_app in Hlen. simpl in Hlen.
        apply (IH (_ ++ [_])); [rewrite length_app; simpl; lia|].
        right. by eexists _, _.
      * apply (IH [_]); [simpl; lia|]. right. by exists [], d.
      * rewrite length_app in Hlen. simpl in Hlen.
        apply (IH (_ :: _ ++ [_])); [simpl; rewrite length_app; simpl; lia|].
        right. by eexists (_ :: _), _.
Qed.

Lemma visited_after_kept (l1 l2 : list connection) (c : connection) :
  (l1 = [] \/ exists l0 d, l1 = l0 ++ [d] /\ evicts d = false) ->
  c ∈ visited evicts (l1 ++ c :: l2).
Proof. by apply (visited_after_kept_upto (length l1)). Qed.

End VisitedShape.

Section WhatIsWritten.
Import Rendezvous Attempts.
Variable throws : nat -> bool.

Lemma sseSend_wire (r : nat) (data : JSON.jsval) (s : state) :
  wire (sseSend throws r data s)
  = wire s ++ [if throws r then WriteThrew r (frame data) else Write r (frame data)].
Proof. unfold sseSend. by destruct (throws r). Qed.

Lemma attempts_cons (packet : JSON.jsval) (sel : connection -> bool)
    (c : connection) (l : list connection) :
  attempts throws packet sel (c :: l)
  = (if sel c then [attempt throws packet c] else []) ++ attempts throws packet sel l.
Proof.
  unfold attempts. rewrite filter_cons. destruct (sel c) eqn:E.
  - by rewrite decide_True.
  - by rewrite decide_False.
Qed.

Lemma announce_fold_wire (body : JSON.jsval) (l : list connection) (s : state) :
  wire (foldl (fun s c => announce_callback throws body c s) s l)
  = wire s ++ attempts throws (announce_packet body) (announce_to body) l.
Proof.
  revert s. induction l as [|c l IH]; intros s; simpl.
  - unfold attempts. simpl. by rewrite app_nil_r.
  - rewrite IH, attempts_cons. unfold announce_callback, attempt.
    destruct (announce_to body c); simpl; [|done].
    by rewrite sseSend_wire, <- app_assoc.
Qed.

Lemma signal_fold_wire (u : string) (body : JSON.jsval)
    (l : list connection) (a : state * bool) :
  wire (fst (foldl (fun a c => signal_callback throws u body c a) a l))
  = wire (fst a) ++ attempts throws (signal_packet body) (signal_to u) l.
Proof.
  revert a. induction l as [|c l IH]; intros a; simpl.
  - unfold attempts. simpl. by rewrite app_nil_r.
  - rewrite IH, attempts_cons. unfold signal_callback, attempt.
    destruct (signal_to u c); simpl; [|done].
    by rewrite sseSend_wire, <- app_assoc.
Qed.

Lemma chunks_of_attempts_other (packet : JSON.jsval) (sel : connection -> bool)
    (l : list connection) (r : nat) :
  r ∉ (res <$> l) -> chunks_of r (attempts throws packet sel l) = [].
Proof.
  induction l as [|d l IH]; intros Hr; [done|].
  rewrite fmap_cons in Hr. apply not_elem_of_cons in Hr as [Hne Hr].
  rewrite attempts_cons, chunks_of_app, IH, app_nil_r by done.
  destruct (sel d); [|done]. unfold attempt.
  destruct (throws (res d)); [done|].
  rewrite chunks_of_write. by destruct (Nat.eqb_spec (res d) r).
Qed.

Lemma chunks_of_attempts (packet : JSON.jsval) (sel : connection -> bool)
    (l : list connection) (c : connection) :
  NoDup (res <$> l) -> c ∈ l -> sel c = true -> throws (res c) = false ->
  chunks_of (res c) (attempts throws packet sel l) = [frame packet].
Proof.
  induction l as [|d l IH]; intros Hnd Hc Hsel Hok; [by apply elem_of_nil in Hc|].
  rewrite fmap_cons in Hnd. apply NoDup_cons in Hnd as [Hd Hnd].
  rewrite attempts_cons, chunks_of_app.
  apply elem_of_cons in Hc as [->|Hc].
  - rewrite Hsel. unfold attempt. rewrite Hok, chunks_of_write, Nat.eqb_refl.
    by rewrite chunks_of_attempts_other.
  - rewrite IH by done.
    assert (Hne : res d <> res c).
    { intros Heq. apply Hd. rewrite Heq. by apply registered_res. }
    destruct (sel d); [|done]. unfold attempt.
    destruct (throws (res d)); [done|].
    rewrite chunks_of_write. by destruct (Nat.eqb_spec (res d) (res c)).
Qed.

End WhatIsWritten.

Section RendezvousExtras.
Import Rendezvous Attempts.

Lemma signal_wire (throws : nat -> bool) (u : string) (body : JSON.jsval) (s : state) :
  NoDup (res <$> connections s) ->
  wire (fst (signal throws u body s))
  = wire s ++ attempts throws (signal_packet body) (signal_to u)
                (visited (evicted throws (signal_to u)) (connections s)).
Proof.
  intros Hnd. rewrite signal_visited by done. simpl. by rewrite signal_fold_wire.
Qed.

(** X1.  What a fan-out writes, exactly: one call of [res.write] for every
    selected connection among the visited ones, in the order of the
    array, where the visit skips the connection that follows each
    connection it evicts. *)
Theorem fan_out_writes_exactly
    (throws : nat -> bool) (u : string) (body : JSON.jsval) (s : state) :
  reachable s ->
  wire (fst (signal throws u body s))
  = wire s ++ attempts throws (signal_packet body) (signal_to u)
                (visited (evicted throws (signal_to u)) (connections s))
  /\ wire (fst (announce throws body s))
     = wire s ++ attempts throws (announce_packet body) (announce_to body)
                   (visited (evicted throws (announce_to body)) (connections s)).
Proof.
  intros Hreach. destruct (reachable_inv s Hreach) as [(Hnd & _) _]. split.
  - rewrite signal_visited by done. simpl. by rewrite signal_fold_wire.
  - rewrite announce_visited by done. by rewrite announce_fold_wire.
Qed.

Lemma three_listeners_reachable : reachable Runs.three_listeners.
Proof.
  apply (reachable_handle Scenario.healthy (Listen "X")).
  apply (reachable_handle Scenario.healthy (Listen "X")).
  apply (reachable_handle Scenario.healthy (Listen "X")), reachable_init.
Qed.

Lemma fan_out_writes_exactly_witness :
  wire (fst (signal Runs.second_fails "X" Scenario.signal_body Runs.three_listeners))
  = wire Runs.three_listeners
    ++ [Write 0 (frame (signal_packet Scenario.signal_body));
        WriteThrew 1 (frame (signal_packet Scenario.signal_body))].
Proof.
  destruct (fan_out_writes_exactly Runs.second_fails "X" Scenario.signal_body
              Runs.three_listeners three_listeners_reachable) as [H _].
  exact H.
Defined.

(** X2.  A healthy listener under the target uuid receives the signal
    whenever it is the first connection of the array or the connection
    registered just before it is not evicted by this request. *)
Theorem signal_reaches_listener_after_kept_connection
    (throws : nat -> bool) (u : string) (body : JSON.jsval) (s : state)
    (l1 l2 : list connection) (c : connection) :
  reachable s ->
  connections s = l1 ++ c :: l2 ->
  uuid c = u ->
  throws (res c) = false ->
  (l1 = [] \/ exists l0 d, l1 = l0 ++ [d] /\ evicted throws (signal_to u) d = false) ->
  chunks_of (res c) (wire (fst (signal throws u body s)))
  = chunks_of (res c) (wire s) ++ [frame (signal_packet body)].
Proof.
  intros Hreach Hl Hu Hok Hprev.
  destruct (reachable_inv s Hreach) as [(Hnd & _) _].
  rewrite signal_wire by done.
  rewrite chunks_of_app. f_equal.
  apply chunks_of_attempts; [| |by apply String.eqb_eq|done].
  - eapply sublist_NoDup; [exact Hnd|].
    apply fmap_sublist, visited_sublist.
  - rewrite Hl. by apply visited_after_kept.
Qed.

Lemma signal_reaches_listener_after_kept_connection_witness :
  chunks_of 0 (wire (fst (signal Runs.second_fails "X" Scenario.signal_body
                            Runs.three_listeners)))
  = chunks_of 0 (wire Runs.three_listeners) ++ [frame (signal_packet Scenario.signal_body)].
Proof.
  apply (signal_reaches_listener_after_kept_connection Runs.second_fails "X"
           Scenario.signal_body Runs.three_listeners []
           [{| uuid := "X"; res := 1 |}; {| uuid := "X"; res := 2 |}]
           {| uuid := "X"; res := 0 |}).
  - exact three_listeners_reachable.
  - reflexivity.
  - reflexivity.
  - reflexivity.
  - by left.
Defined.

Lemma existsb_signal_to (u : string) (l : list connection) :
  existsb (signal_to u) l = true <-> exists c, c ∈ l /\ uuid c = u.
Proof.
  rewrite existsb_exists. split.
  - intros (c & Hc & Hu). exists c. split; [by apply list_elem_of_In|].
    by apply String.eqb_eq.
  - intros (c & Hc & Hu). exists c. split; [by apply list_elem_of_In|].
    by apply String.eqb_eq.
Qed.

(** X3.  [signal] answers 200 exactly when some registered connection
    listens under the target uuid and 404 otherwise, whether or not the
    writes succeed. *)
Theorem signal_answers_200_iff_listener
    (throws : nat -> bool) (u : string) (body : JSON.jsval) (s : state) :
  reachable s ->
  (snd (signal throws u body s) = 200 <-> exists c, c ∈ connections s /\ uuid c = u)
  /\ (snd (signal throws u body s) = 404 <-> ~ exists c, c ∈ connections s /\ uuid c = u).
Proof.
  intros Hreach. destruct (reachable_inv s Hreach) as [(Hnd & _) _].
  rewrite signal_status by done. rewrite <- existsb_signal_to.
  destruct (existsb (signal_to u) (connections s)); split; split;
    try done; try (intros H; by destruct H); by intros _ ?.
Qed.

Lemma signal_answers_200_iff_listener_witness :
  snd (signal Scenario.first_fails "X" Scenario.signal_body (Scenario.listeners "X" "Y")) = 200
  /\ snd (signal Scenario.healthy "Z" Scenario.signal_body (Scenario.listeners "X" "Y")) = 404.
Proof.
  assert (Hreach : reachable (Scenario.listeners "X" "Y")).
  { apply (reachable_handle Scenario.healthy (Listen "Y")).
    apply (reachable_handle Scenario.healthy (Listen "X")), reachable_init. }
  split.
  - apply (signal_answers_200_iff_listener Scenario.first_fails "X" _ _ Hreach).
    exists {| uuid := "X"; res := 0 |}. split; [left | done].
  - apply (signal_answers_200_iff_listener Scenario.healthy "Z" _ _ Hreach).
    intros (c & Hc & Hu). vm_compute in Hc.
    apply elem_of_cons in Hc as [->|Hc]; [done|].
    apply list_elem_of_singleton in Hc as ->. done.
Defined.

(** X4.  An announce leaves every connection registered under the
    announcer's uuid alone: nothing is written on its stream and it stays
    registered with its timer, even when its own transport would fail and
    whatever happens to the others. *)
Theorem announce_leaves_own_uuid_alone
    (throws : nat -> bool) (body : JSON.jsval) (s : state) (c : connection) :
  reachable s ->
  c ∈ connections s ->
  JSON.get "uuid" body = JSON.JStr (uuid c) ->
  c ∈ connections (fst (announce throws body s))
  /\ intervals (fst (announce throws body s)) !! res c = Some 5000
  /\ chunks_of (res c) (wire (fst (announce throws body s))) = chunks_of (res c) (wire s).
Proof.
  intros Hreach Hc Hbody. pose proof (reachable_inv s Hreach) as Hinv.
  assert (Hself : announce_to body c = false).
  { unfold announce_to. rewrite Hbody. simpl. by rewrite String.eqb_refl. }
  assert (Hin : c ∈ connections (fst (announce throws body s))).
  { unfold announce; simpl.
    apply (forEach_preserves connections _
             (fun a => inv a /\ c ∈ connections a
                       /\ forall x, x ∈ connections a -> x ∈ connections s)); [|done].
    intros d a (Ha & Hca & Hsub) Hd.
    destruct (negb _) eqn:Hto; [|done].
    pose proof (registered_res _ _ Hd) as Hreg.
    split; [by apply sseSend_inv|].
    split; [|intros x Hx; eapply Hsub, sseSend_no_growth; [apply Ha|done..]].
    destruct Ha as [(Hnd & _) _].
    destruct (throws (res d)) eqn:Ht; [|by rewrite sseSend_ok].
    destruct (registered_lookup _ _ Hreg) as (k & d' & Hk & Hd').
    rewrite (sseSend_evicts throws _ _ a k d') by done. simpl.
    apply (delete_registered _ k d' Hnd Hk). split; [done|].
    intros ->.
    assert (d = d') by (apply (registered_inj (connections a)); try done;
                        by eapply list_elem_of_lookup_2).
    subst d'. unfold announce_to in Hself. by rewrite Hself in Hto. }
  split; [done|].
  destruct (announce_inv throws body s Hinv) as [(_ & _ & Hint & _) _].
  split; [by apply Hint, registered_res|].
  apply announce_never_to_self; [done|].
  intros c' Hc' Heq.
  destruct Hinv as [(Hnd & _) _].
  by rewrite (registered_inj (connections s) c' c Hnd Hc' Hc Heq).
Qed.

Lemma announce_leaves_own_uuid_alone_witness :
  {| uuid := "A"; res := 1 |}
    ∈ connections (fst (announce (fun _ => true) Scenario.announce_body
                          (Scenario.listeners "B" "A")))
  /\ chunks_of 1 (wire (fst (announce (fun _ => true) Scenario.announce_body
                               (Scenario.listeners "B" "A"))))
     = chunks_of 1 (wire (Scenario.listeners "B" "A")).
Proof.
  assert (Hreach : reachable (Scenario.listeners "B" "A")).
  { apply (reachable_handle Scenario.healthy (Listen "A")).
    apply (reachable_handle Scenario.healthy (Listen "B")), reachable_init. }
  destruct (announce_leaves_own_uuid_alone (fun _ => true) Scenario.announce_body
              _ {| uuid := "A"; res := 1 |} Hreach) as (H1 & _ & H2).
  - vm_compute. right. left.
  - reflexivity.
  - split; [exact H1 | exact H2].
Defined.

(** X5.  When no write to a listener under the target uuid fails, [signal]
    writes the signal frame once on the stream of each of them, in the
    order they registered, writes on no other stream, and leaves the
    array and the timers as they were. *)
Theorem signal_without_failure_reaches_all
    (throws : nat -> bool) (u : string) (body : JSON.jsval) (s : state) :
  reachable s ->
  (forall c, c ∈ connections s -> uuid c = u -> throws (res c) = false) ->
  fst (signal throws u body s)
  = {| connections := connections s;
       intervals := intervals s;
       wire := wire s ++ ((fun c => Write (res c) (frame (signal_packet body)))
                            <$> filter (fun c => uuid c = u) (connections s));
       next_res := next_res s |}.
Proof.
  intros Hreach Hok. destruct (reachable_inv s Hreach) as [(Hnd & _) _].
  rewrite signal_delivers_without_failure; [|done|].
  - unfold deliveries. do 3 f_equal. apply list_filter_iff.
    intros c. unfold signal_to. by rewrite String.eqb_eq.
  - intros c Hc Hsel. apply Hok; [done|]. by apply String.eqb_eq.
Qed.

Lemma signal_without_failure_reaches_all_witness :
  wire (fst (signal Scenario.healthy "X" Scenario.signal_body (Scenario.listeners "X" "X")))
  = wire (Scenario.listeners "X" "X")
    ++ [Write 0 (frame (signal_packet Scenario.signal_body));
        Write 1 (frame (signal_packet Scenario.signal_body))].
Proof.
  assert (Hreach : reachable (Scenario.listeners "X" "X")).
  { apply (reachable_handle Scenario.healthy (Listen "X")).
    apply (reachable_handle Scenario.healthy (Listen "X")), reachable_init. }
  rewrite (signal_without_failure_reaches_all Scenario.healthy "X"
             Scenario.signal_body _ Hreach); [reflexivity|].
  reflexivity.
Defined.

(** X6.  When no write to a listener under another uuid fails, [announce]
    writes the announce frame once on the stream of each connection it
    selects, in the order they registered, and leaves the array and the
    timers as they were.  It selects the connections whose uuid is not
    the string the body gives as [uuid]: all of them when the body gives
    no string. *)
Theorem announce_without_failure_reaches_all_others
    (throws : nat -> bool) (body : JSON.jsval) (s : state) :
  reachable s ->
  (forall c, c ∈ connections s -> JSON.get "uuid" body <> JSON.JStr (uuid c) ->
             throws (res c) = false) ->
  fst (announce throws body s)
  = {| connections := connections s;
       intervals := intervals s;
       wire := wire s ++ ((fun c => Write (res c) (frame (announce_packet body)))
                            <$> filter (fun c => announce_to body c = true) (connections s));
       next_res := next_res s |}
  /\ (forall c, announce_to body c = true <-> JSON.get "uuid" body <> JSON.JStr (uuid c))
  /\ ((forall v, JSON.get "uuid" body <> JSON.JStr v) ->
      filter (fun c => announce_to body c = true) (connections s) = connections s).
Proof.
  intros Hreach Hok. destruct (reachable_inv s Hreach) as [(Hnd & _) _].
  assert (Hto : forall c, announce_to body c = true
                          <-> JSON.get "uuid" body <> JSON.JStr (uuid c)).
  { intros c. unfold announce_to, JSON.str_strict_eq.
    destruct (JSON.get "uuid" body) as [| | | |v| | |]; try done.
    rewrite negb_true_iff. destruct (String.eqb_spec (uuid c) v) as [->|Hne].
    - split; [done | congruence].
    - split; [congruence | done]. }
  split; [|split; [done|]].
  - rewrite announce_delivers_without_failure; [done|done|].
    intros c Hc Hsel. apply Hok; [done|]. by apply Hto.
  - intros Hnone. generalize (connections s). intros l.
    induction l as [|c l IH]; [done|].
    rewrite filter_cons, decide_True by (apply Hto, Hnone). by rewrite IH.
Qed.

Lemma announce_without_failure_reaches_all_others_witness :
  wire (fst (announce Scenario.healthy Runs.empty_body (Scenario.listeners "B" "C")))
  = wire (Scenario.listeners "B" "C")
    ++ [Write 0 (frame (announce_packet Runs.empty_body));
        Write 1 (frame (announce_packet Runs.empty_body))].
Proof.
  assert (Hreach : reachable (Scenario.listeners "B" "C")).
  { apply (reachable_handle Scenario.healthy (Listen "C")).
    apply (reachable_handle Scenario.healthy (Listen "B")), reachable_init. }
  destruct (announce_without_failure_reaches_all_others Scenario.healthy
              Runs.empty_body _ Hreach) as [H _]; [reflexivity|].
  rewrite H. reflexivity.
Defined.

(** X7.  No timer outlives its connection: in every state the server can
    reach, a live timer has a delay of 5000 ms and belongs to a connection
    that is registered, so [indexOf] finds it when the timer's write
    fails and the eviction removes that connection and no other. *)
Theorem timer_belongs_to_registered_connection (s : state) (r : nat) (p : Z) :
  reachable s ->
  intervals s !! r = Some p ->
  p = 5000
  /\ exists k c,
      connections s !! k = Some c /\ res c = r
      /\ indexOf (connections s) r = Z.of_nat k
      /\ forall throws,
           connections (interval_fires throws r s)
           = if throws r then delete k (connections s) else connections s.
Proof.
  intros Hreach Hp.
  destruct (reachable_inv s Hreach) as [(Hnd & _ & Hint & Hper & _) _].
  assert (p = 5000) as -> by (destruct (Hper r); congruence).
  split; [done|].
  destruct (registered_lookup _ _ (proj2 (Hint r) Hp)) as (k & c & Hk & Hc).
  exists k, c. split; [done|]. split; [done|]. split.
  - unfold indexOf. rewrite (indexOf_from_lookup _ r 0 k c) by done. lia.
  - intros throws. unfold interval_fires. rewrite Hp.
    destruct (throws r) eqn:Ht.
    + by rewrite (sseSend_evicts throws r _ s k c).
    + by rewrite sseSend_ok.
Qed.

Lemma timer_belongs_to_registered_connection_witness :
  indexOf (connections Runs.three_listeners) 2 <> -1.
Proof.
  destruct (timer_belongs_to_registered_connection Runs.three_listeners 2 5000
              three_listeners_reachable) as (_ & k & c & _ & _ & H & _).
  - reflexivity.
  - rewrite H. lia.
Defined.

(** X8.  A [listen] request either registers or leaves no registration
    behind.  When the write of [accept] succeeds, the new connection is
    appended after all the others, whatever uuids these have, with a
    timer of its own.  When it fails, the array and the timers are what
    they were before the request, and nothing is on the new stream. *)
Theorem listen_registers_or_rolls_back
    (throws : nat -> bool) (u : string) (s : state) :
  reachable s ->
  next_res (listen throws u s) = S (next_res s)
  /\ (throws (next_res s) = false ->
      connections (listen throws u s)
      = connections s ++ [{| uuid := u; res := next_res s |}]
      /\ intervals (listen throws u s) = <[next_res s := 5000]> (intervals s))
  /\ (throws (next_res s) = true ->
      connections (listen throws u s) = connections s
      /\ intervals (listen throws u s) = intervals s
      /\ chunks_of (next_res s) (wire (listen throws u s)) = []).
Proof.
  intros Hreach. destruct (reachable_inv s Hreach) as [Hwf _].
  pose proof (fresh_unregistered s Hwf) as Hfresh.
  pose proof (fresh_silent s Hwf) as Hsilent.
  pose proof (sse_wf u s Hwf) as Hwf1.
  destruct Hwf as (Hnd & _ & Hint & Hper & _).
  unfold listen, sse in *. simpl in *.
  split; [unfold sseSend; by destruct (throws (next_res s))|].
  split; intros Ht.
  - by rewrite sseSend_ok.
  - rewrite (sseSend_evicts throws _ _ _ (length (connections s))
               {| uuid := u; res := next_res s |}); try done.
    + simpl. split; [|split].
      * rewrite delete_take_drop, take_app_length, drop_app_ge by lia.
        replace (S _ - _)%nat with 1%nat by lia. by rewrite app_nil_r.
      * apply delete_insert_id. destruct (Hper (next_res s)) as [H|H]; [done|].
        by apply Hint in H.
      * rewrite !chunks_of_app, Hsilent. done.
    + apply Hwf1.
    + simpl. by rewrite list_lookup_middle.
Qed.

Lemma listen_registers_or_rolls_back_witness :
  connections (listen Scenario.healthy "X" (Scenario.listeners "X" "X"))
  = connections (Scenario.listeners "X" "X") ++ [{| uuid := "X"; res := 2 |}]
  /\ connections (listen Runs.third_fails "X" (Scenario.listeners "X" "X"))
     = connections (Scenario.listeners "X" "X").
Proof.
  assert (Hreach : reachable (Scenario.listeners "X" "X")).
  { apply (reachable_handle Scenario.healthy (Listen "X")).
    apply (reachable_handle Scenario.healthy (Listen "X")), reachable_init. }
  split.
  - destruct (listen_registers_or_rolls_back Scenario.healthy "X" _ Hreach)
      as (_ & H & _).
    destruct H as [H _]; [reflexivity | exact H].
  - destruct (listen_registers_or_rolls_back Runs.third_fails "X" _ Hreach)
      as (_ & _ & H).
    destruct H as [H _]; [reflexivity | exact H].
Defined.

End RendezvousExtras.

(** * Further properties of [JSON.stringify] and of the frames *)

Section FrameFacts.
Import JSON Lines.

Lemma no_control_app (a b : string) :
  no_control (a +:+ b) = no_control a && no_control b.
Proof.
  induction a as [|c a IH]; [done|]. simpl. rewrite IH. by rewrite andb_assoc.
Qed.

Lemma no_control_quote_char (c : ascii) : no_control (quote_char c) = true.
Proof. by destruct c as [[] [] [] [] [] [] [] []]. Qed.

Lemma no_control_quote (s : string) : no_control (quote s) = true.
Proof.
  unfold quote. rewrite !no_control_app. simpl.
  induction s as [|c s IH]; [done|]. simpl.
  rewrite no_control_app, no_control_quote_char. simpl.
  by rewrite andb_true_r in IH |- *.
Qed.

Lemma no_control_join (sep : string) (l : list string) :
  no_control sep = true -> Forall (fun x => no_control x = true) l ->
  no_control (join sep l) = true.
Proof.
  intros Hsep. induction 1 as [|x l Hx Hl IH]; [done|].
  destruct l as [|y l]; [done|].
  change (join sep (x :: y :: l)) with (x +:+ sep +:+ join sep (y :: l)).
  by rewrite !no_control_app, Hx, Hsep, IH.
Qed.

Lemma no_control_pretty_N_char (x : N) :
  (32 <=? N_of_ascii (pretty_N_char x))%N = true.
Proof. unfold pretty_N_char. by repeat case_match. Qed.

Lemma no_control_pretty_N_go (x : N) (s : string) :
  no_control s = true -> no_control (pretty_N_go x s) = true.
Proof.
  revert s. induction (N.lt_wf_0 x) as [x _ IH]; intros s Hs.
  destruct (decide (x = 0)%N) as [->|Hx]; [by rewrite pretty_N_go_0|].
  rewrite pretty_N_go_step by lia. apply IH.
  - apply N.div_lt; lia.
  - simpl. by rewrite no_control_pretty_N_char, Hs.
Qed.

Lemma no_control_pretty_Z (n : Z) : no_control (pretty n) = true.
Proof.
  assert (HN : forall x : N, no_control (pretty x) = true).
  { intros x. unfold pretty, pretty_N. case_decide; [done|].
    by apply no_control_pretty_N_go. }
  destruct n as [|q|q]; [done | apply HN |].
  unfold pretty, pretty_Z. rewrite no_control_app. simpl. apply HN.
Qed.

Lemma no_control_number_text (t : list numchar) : no_control (number_text t) = true.
Proof.
  unfold number_text. induction t as [|c t IH]; [done|].
  simpl. rewrite IH. by destruct c.
Qed.

(** Induction over a value and, inside it, over its items and members. *)
Lemma jsval_nested_ind (P : jsval -> Prop) :
  P JUndefined -> P JNull -> (forall b, P (JBool b)) -> (forall n, P (JNum n)) ->
  (forall s, P (JStr s)) ->
  (forall items, Forall P items -> P (JArr items)) ->
  (forall fields, Forall (fun kv => P (snd kv)) fields -> P (JObj fields)) ->
  (forall x, P (JReal x)) ->
  forall v, P v.
Proof.
  intros Hu Hn Hb Hz Hs Ha Ho Hr.
  refine (fix IH (v : jsval) : P v :=
            match v with
            | JUndefined => Hu
            | JNull => Hn
            | JBool b => Hb b
            | JNum n => Hz n
            | JStr s => Hs s
            | JArr items =>
                Ha items
                   ((fix go (l : list jsval) : Forall P l :=
                       match l with
                       | [] => Forall_nil_2 P
                       | i :: rest => Forall_cons_2 P i rest (IH i) (go rest)
                       end) items)
            | JObj fields =>
                Ho fields
                   ((fix go (l : list (string * jsval)) : Forall (fun kv => P (snd kv)) l :=
                       match l with
                       | [] => Forall_nil_2 _
                       | kv :: rest =>
                           Forall_cons_2 (fun kv => P (snd kv)) kv rest (IH (snd kv)) (go rest)
                       end) fields)
            | JReal x => Hr x
            end).
Qed.

(** [JSON.stringify] never yields a control character. *)
Lemma no_control_stringify (v : jsval) :
  no_control (to_text (stringify v)) = true.
Proof.
  induction v as [| |[]|n|s|items IH|fields IH|[text| |]] using jsval_nested_ind;
    try done; [| | | |apply no_control_number_text].
  - apply no_control_pretty_Z.
  - apply no_control_quote.
  - simpl. rewrite !no_control_app. simpl. rewrite andb_true_r.
    apply no_control_join; [done|].
    induction IH as [|i items Hi _ IHi]; constructor; [|done].
    by destruct (stringify i).
  - simpl. rewrite !no_control_app. simpl. rewrite andb_true_r.
    apply no_control_join; [done|].
    induction IH as [|[k v] fields Hv _ IHf]; [constructor|].
    simpl. apply Forall_app. split; [|done].
    simpl in Hv. destruct (stringify v) as [t|]; [|constructor].
    constructor; [|constructor].
    rewrite !no_control_app, no_control_quote. simpl. exact Hv.
Qed.

Lemma stringify_undefined (v : jsval) :
  stringify v = None <-> Members.is_undefined v = true.
Proof. destruct v as [| |[]| | | | |[| |]]; simpl; split; done. Qed.

(** X9.  A member whose value is [undefined] leaves no trace in the JSON
    text: an object prints as the object made of its other members.  So a
    signal whose body has none of [initiator], [data] and [uuid] (or is
    not an object) sends [{"type":"signal"}], and an announce without
    [uuid] sends [{"type":"announce"}]. *)
Theorem stringify_drops_undefined_members (fields : list (string * jsval)) :
  stringify (JObj fields) = stringify (JObj (Members.defined_members fields))
  /\ (forall body,
        get "initiator" body = JUndefined -> get "data" body = JUndefined ->
        get "uuid" body = JUndefined ->
        stringify (Rendezvous.signal_packet body)
        = stringify (JObj [("type", JStr "signal")]))
  /\ (forall body,
        get "uuid" body = JUndefined ->
        stringify (Rendezvous.announce_packet body)
        = stringify (JObj [("type", JStr "announce")])).
Proof.
  split; [|split].
  - simpl. do 4 f_equal. unfold Members.defined_members.
    induction fields as [|[k v] fields IH]; [done|].
    rewrite filter_cons. simpl.
    destruct (stringify v) as [t|] eqn:Hv.
    + rewrite decide_True; [simpl; by rewrite Hv, IH|].
      destruct (Members.is_undefined v) eqn:Hu; [|done].
      apply stringify_undefined in Hu. congruence.
    + rewrite decide_False; [done|].
      apply stringify_undefined in Hv. by rewrite Hv.
  - intros body Hi Hd Hu. unfold Rendezvous.signal_packet. by rewrite Hi, Hd, Hu.
  - intros body Hu. unfold Rendezvous.announce_packet. by rewrite Hu.
Qed.

(** X10.  Whatever value is sent, the frame is the text [data: ], the JSON
    text, and two newlines, and the JSON text holds no control character:
    the only line ends of a frame are the two that close it, so one
    [sseSend] is one event on the stream, also for a payload chosen by a
    remote peer. *)
Theorem frame_is_one_event (data : jsval) :
  Rendezvous.frame data
  = "data: " +:+ to_text (stringify data)
      +:+ Rendezvous.newline +:+ Rendezvous.newline
  /\ no_control (to_text (stringify data)) = true
  /\ no_control Rendezvous.newline = false.
Proof. split; [done|]. split; [apply no_control_stringify | done]. Qed.

End FrameFacts.

(** * Further properties of the start-up *)

Section StartupExtras.
Import Startup Effects.

(** X11.  The spinner never keeps spinning: every run creates it once and
    settles it once, with [succeed] when the initial scan succeeded and
    with [fail] when it did not, whatever happens afterwards. *)
Theorem spinner_is_always_settled (E : env) (port : JSON.jsval) :
  filter (fun e => is_spinner e = true) (fst (startServer E port))
  = [SpinnerCreate "Hashing files";
     if scan_succeeds E then SpinnerSucceed "Hashing files"
     else SpinnerFail "Hashing files"].
Proof.
  unfold startServer, scan_succeeds. rewrite resolvePort_total.
  destruct E as [gp scan w npm ecs api pe ev]; simpl.
  destruct scan as [[]|e]; simpl; [|done].
  destruct (pe npm); simpl; [|by destruct w].
  destruct (pe ecs) eqn:Hecs; simpl.
  - rewrite Hecs; simpl. by destruct w.
  - destruct (pe api); simpl; by destruct w.
Qed.

(** X12.  The file watcher is started exactly when [this.watch] is set and
    the initial scan succeeded; this is before the supporting directories
    are looked for, so the watcher also runs when the start-up then stops
    for want of them. *)
Theorem watcher_started_iff_watch_and_scan (E : env) (port : JSON.jsval) :
  existsb is_watch (fst (startServer E port)) = watch E && scan_succeeds E.
Proof.
  unfold startServer, scan_succeeds. rewrite resolvePort_total.
  destruct E as [gp scan w npm ecs api pe ev]; simpl.
  destruct scan as [[]|e]; simpl; [|by destruct w].
  destruct (pe npm); simpl; [|by destruct w].
  destruct (pe ecs) eqn:Hecs; simpl.
  - rewrite Hecs; simpl. by destruct w.
  - destruct (pe api); simpl; by destruct w.
Qed.

(** X13.  The server is told to listen exactly when the initial scan
    succeeded and the supporting directories are there: [node_modules],
    and inside it [decentraland-ecs] or [decentraland-api].  In every
    other run no route is installed: at most the cors middleware is. *)
Theorem listens_iff_scan_and_dependencies (E : env) (port : JSON.jsval) :
  existsb is_listen (fst (startServer E port))
  = scan_succeeds E && dependencies_installed E
  /\ (scan_succeeds E && dependencies_installed E = false ->
      filter (fun e => is_route e = true) (fst (startServer E port))
      = if scan_succeeds E then [AppUse "cors"] else []).
Proof.
  unfold startServer, scan_succeeds, dependencies_installed.
  rewrite resolvePort_total.
  destruct E as [gp scan w npm ecs api pe ev]; simpl.
  destruct scan as [[]|e]; simpl; [|done].
  destruct (pe npm); simpl; [|by destruct w].
  destruct (pe ecs) eqn:Hecs; simpl.
  - rewrite Hecs; simpl. by destruct w.
  - destruct (pe api); simpl; by destruct w.
Qed.

(** X14.  What a start-up that lacks its supporting directories fails
    with: the error names [node_modules] when that is missing, and names
    [decentraland-api] and [decentraland-ecs], in this order, when
    [node_modules] is there and neither of them is. *)
Theorem missing_dependencies_error (E : env) (port : JSON.jsval) :
  scan_succeeds E = true ->
  dependencies_installed E = false ->
  snd (startServer E port)
  = Throw (PREVIEW_ERROR
             (if pathExistsSync E (npmModulesPath E)
              then "Couldn't find " +:+ dclApiPath E +:+ " or " +:+ dclEcsPath E
                   +:+ ", please run: npm install"
              else "Couldn't find " +:+ npmModulesPath E
                   +:+ ", please run: npm install")).
Proof.
  unfold startServer, scan_succeeds, dependencies_installed.
  rewrite resolvePort_total.
  destruct E as [gp scan w npm ecs api pe ev]; simpl.
  destruct scan as [[]|e]; simpl; [|done]. intros _.
  destruct (pe npm); simpl; [|by destruct w].
  destruct (pe ecs) eqn:Hecs; simpl; [done|].
  destruct (pe api); simpl; [done|]. by destruct w.
Qed.

Lemma missing_dependencies_error_witness :
  snd (startServer Runs.no_node_modules (JSON.JNum 8000))
  = Throw (PREVIEW_ERROR "Couldn't find /scene/node_modules, please run: npm install").
Proof.
  apply (missing_dependencies_error Runs.no_node_modules (JSON.JNum 8000)); reflexivity.
Defined.

End StartupExtras.

(** * Properties of the preview page *)

Section HtmlFacts.
Import Html.

Lemma string_app_assoc (a b c : string) : (a +:+ b) +:+ c = a +:+ (b +:+ c).
Proof.
  induction a as [|x a IH]; [done|].
  change (String x ((a +:+ b) +:+ c) = String x (a +:+ (b +:+ c))). by rewrite IH.
Qed.

Lemma replace_unfold (pat rep s : string) :
  replace pat rep s
  = match strip_prefix pat s with
    | Some rest => rep +:+ rest
    | None =>
        match s with
        | EmptyString => EmptyString
        | String c s' => String c (replace pat rep s')
        end
    end.
Proof. by destruct s. Qed.

Lemma strip_prefix_spec (p s r : string) :
  strip_prefix p s = Some r <-> s = p +:+ r.
Proof.
  revert s. induction p as [|a p IH]; intros s.
  - cbn. split; [by intros [= ->] | by intros ->].
  - destruct s as [|b s]; [split; discriminate|].
    cbn. destruct (Ascii.eqb_spec a b) as [->|Hne].
    + rewrite IH. split; [by intros -> | intros H; cbn in H; by injection H as ->].
    + split; [discriminate|]. intros H. cbn in H. injection H as H1 H2. congruence.
Qed.

Lemma occurs_at_tail (pat a s : string) (c : ascii) :
  occurs_at pat a s -> occurs_at pat (String c a) (String c s).
Proof. intros [b ->]. by exists b. Qed.

Lemma occurs_at_start (pat s : string) :
  occurs_at pat EmptyString s <-> exists r, strip_prefix pat s = Some r.
Proof.
  split.
  - intros [b Hb]. exists b. apply strip_prefix_spec. exact Hb.
  - intros [r Hr]. exists r. apply strip_prefix_spec in Hr. exact Hr.
Qed.

(** The first occurrence is the one replaced, and only it. *)
Lemma replace_first (pat rep a b : string) :
  first_at pat a (a +:+ pat +:+ b) ->
  replace pat rep (a +:+ pat +:+ b) = a +:+ rep +:+ b.
Proof.
  induction a as [|c a IH]; intros [Hocc Hmin].
  - change (EmptyString +:+ pat +:+ b) with (pat +:+ b).
    change (EmptyString +:+ rep +:+ b) with (rep +:+ b).
    rewrite replace_unfold.
    by rewrite (proj2 (strip_prefix_spec pat (pat +:+ b) b) eq_refl).
  - change (String c a +:+ pat +:+ b) with (String c (a +:+ pat +:+ b)) in *.
    change (String c a +:+ rep +:+ b) with (String c (a +:+ rep +:+ b)).
    rewrite replace_unfold.
    destruct (strip_prefix pat (String c (a +:+ pat +:+ b))) as [r|] eqn:Hr.
    + assert (Hz : occurs_at pat EmptyString (String c (a +:+ pat +:+ b))).
      { apply occurs_at_start. eauto. }
      apply Hmin in Hz. simpl in Hz. lia.
    + f_equal. apply IH. split; [by exists b|].
      intros a' Ha'. apply (occurs_at_tail _ _ _ c) in Ha'.
      apply Hmin in Ha'. simpl in Ha'. lia.
Qed.

(** Without an occurrence nothing is replaced. *)
Lemma replace_absent (pat rep s : string) :
  (forall a, ~ occurs_at pat a s) -> replace pat rep s = s.
Proof.
  induction s as [|c s IH]; intros Habs; rewrite replace_unfold.
  - destruct (strip_prefix pat EmptyString) as [r|] eqn:Hr; [|done].
    exfalso. apply (Habs EmptyString), occurs_at_start. eauto.
  - destruct (strip_prefix pat (String c s)) as [r|] eqn:Hr.
    + exfalso. apply (Habs EmptyString), occurs_at_start. eauto.
    + f_equal. apply IH. intros a Ha. by apply (Habs (String c a)), occurs_at_tail.
Qed.

Lemma index_of_unfold (pat s : string) :
  index_of pat s
  = match strip_prefix pat s with
    | Some _ => Some 0%nat
    | None =>
        match s with
        | EmptyString => None
        | String _ s' => S <$> index_of pat s'
        end
    end.
Proof. by destruct s. Qed.

(** What [indexOf] finds is the first occurrence. *)
Lemma index_of_first_at (pat a b : string) :
  index_of pat (a +:+ pat +:+ b) = Some (String.length a) ->
  first_at pat a (a +:+ pat +:+ b).
Proof.
  intros Hidx. split; [by exists b|].
  generalize dependent (a +:+ pat +:+ b). generalize (String.length a). clear a b.
  intros n s. revert n. induction s as [|c s IH]; intros n Hidx a' [b' Hocc];
    rewrite index_of_unfold in Hidx.
  - destruct a'; [simpl; destruct (strip_prefix pat EmptyString); simplify_eq; lia|].
    discriminate.
  - destruct (strip_prefix pat (String c s)) as [r|] eqn:Hr; [simplify_eq; lia|].
    destruct a' as [|c' a'].
    + exfalso. assert (strip_prefix pat (String c s) = Some b') as Hbad; [|congruence].
      apply strip_prefix_spec. exact Hocc.
    + change (String c' a' +:+ pat +:+ b') with (String c' (a' +:+ pat +:+ b')) in Hocc.
      injection Hocc as -> Hocc.
      destruct (index_of pat s) as [m|] eqn:Hm; simplify_eq/=.
      specialize (IH m eq_refl a' (ex_intro _ b' eq_refl)). lia.
Qed.

Lemma replacement_has_no_dollar (unityEnabled ethConnectExists : bool) :
  has_dollar (avoidWeb3_script ethConnectExists +:+ loader_tag unityEnabled) = false.
Proof. by destruct unityEnabled, ethConnectExists. Qed.

Section Page.
Variable resolve : list string -> string.
Variable readFile : string -> result string.
Variable pathExists : string -> bool.

Lemma getHTML_reads_template (artifactPath : string) (unityEnabled eth : bool) :
  getHTML resolve readFile artifactPath unityEnabled eth
  = match readFile (resolve [artifactPath; "artifacts"; template unityEnabled]) with
    | Ok html =>
        Ok (replace (loader_tag unityEnabled)
              (avoidWeb3_script eth +:+ loader_tag unityEnabled) html)
    | Throw e => Throw e
    end.
Proof. by destruct unityEnabled. Qed.

(** X15.  [getHTML] serves the template with one line inserted: the
    script that sets [window.avoidWeb3] to the negation of
    [ethConnectExists], right before the first loader tag.  Everything
    before that tag, the tag itself and everything after it, later
    loader tags included, are the template's. *)
Theorem getHTML_inserts_flag_before_first_loader_tag
    (artifactPath : string) (unityEnabled eth : bool) (a b : string) :
  readFile (resolve [artifactPath; "artifacts"; template unityEnabled])
  = Ok (a +:+ loader_tag unityEnabled +:+ b) ->
  first_at (loader_tag unityEnabled) a (a +:+ loader_tag unityEnabled +:+ b) ->
  getHTML resolve readFile artifactPath unityEnabled eth
  = Ok (a +:+ "<script>window.avoidWeb3=" +:+ (if eth then "false" else "true")
          +:+ "</script>" +:+ Rendezvous.newline
          +:+ loader_tag unityEnabled +:+ b).
Proof.
  intros Hread Hfirst. rewrite getHTML_reads_template, Hread.
  rewrite replace_first by done. unfold avoidWeb3_script.
  rewrite !string_app_assoc. by destruct eth.
Qed.

(** X16.  A template without the loader tag is served as it is, without
    the [avoidWeb3] script, and a template that cannot be read makes
    [getHTML] fail with the error of the read. *)
Theorem getHTML_without_loader_tag
    (artifactPath : string) (unityEnabled eth : bool) :
  (forall html,
      readFile (resolve [artifactPath; "artifacts"; template unityEnabled]) = Ok html ->
      (forall a, ~ occurs_at (loader_tag unityEnabled) a html) ->
      getHTML resolve readFile artifactPath unityEnabled eth = Ok html)
  /\ (forall e,
        readFile (resolve [artifactPath; "artifacts"; template unityEnabled]) = Throw e ->
        getHTML resolve readFile artifactPath unityEnabled eth = Throw e).
Proof.
  split.
  - intros html Hread Habs. rewrite getHTML_reads_template, Hread.
    by rewrite replace_absent.
  - intros e Hread. by rewrite getHTML_reads_template, Hread.
Qed.

(** X17.  The route [/] serves the unity page for every value of the
    query parameter [UNITY_ENABLED] that is not empty, whatever it says
    ([false] and [0] included), and for a repeated or nested parameter;
    it serves the other page when the parameter is absent or empty. *)
Theorem root_unity_for_any_nonempty_value (workingDir artifactPath : string) :
  let eth := pathExists (resolve [workingDir; "node_modules"; "eth-connect"]) in
  let unity := ([("Content-Type", "text/html")],
                getHTML resolve readFile artifactPath true eth) in
  let plain := ([("Content-Type", "text/html")],
                getHTML resolve readFile artifactPath false eth) in
  (forall v, v <> EmptyString ->
     root resolve readFile pathExists workingDir artifactPath (JSON.JStr v) = unity)
  /\ (forall items,
       root resolve readFile pathExists workingDir artifactPath (JSON.JArr items) = unity)
  /\ (forall fields,
       root resolve readFile pathExists workingDir artifactPath (JSON.JObj fields) = unity)
  /\ root resolve readFile pathExists workingDir artifactPath (JSON.JStr EmptyString) = plain
  /\ root resolve readFile pathExists workingDir artifactPath JSON.JUndefined = plain.
Proof.
  intros eth unity plain. split; [|done].
  intros v Hv. unfold root. simpl.
  by destruct (String.eqb_spec v EmptyString).
Qed.

End Page.

Lemma getHTML_inserts_flag_before_first_loader_tag_witness :
  getHTML Runs.path_join Runs.disk "/ecs" false true
  = Ok (Runs.page_head +:+ "<script>window.avoidWeb3=false</script>"
          +:+ Rendezvous.newline +:+ preview_tag +:+ Runs.page_tail).
Proof.
  apply (getHTML_inserts_flag_before_first_loader_tag Runs.path_join Runs.disk
           "/ecs" false true Runs.page_head Runs.page_tail).
  - reflexivity.
  - apply (index_of_first_at preview_tag Runs.page_head Runs.page_tail). reflexivity.
Defined.

End HtmlFacts.

(** * Properties of the linker page *)

Section LinkerFacts.
Import Linker.
Variable number : Type.
Variable parseInt : string -> number.
Variable E : env number.

Ltac run_page :=
  unfold componentDidMount, ethereum, getContractAddress, getSceneMetadata,
    getIpnsHash, closeServer, bind, try_catch, call, lift, setState, this_state, ret,
    message_of;
  repeat (case_match; simplify_eq/=); try done.

(** What the page itself throws is a [TypeError]. *)
Lemma prop_throws (k : string) (v : JSON.jsval) (e : exn) :
  prop k v = Throw e -> e = TypeError.
Proof. destruct v; simpl; congruence. Qed.

Lemma coordinates_of_throws (items : list JSON.jsval) (e : exn) :
  coordinates_of number parseInt items = Throw e -> e = TypeError.
Proof.
  induction items as [|v items IH]; [done|].
  destruct v; simpl; try congruence.
  destruct (coordinates_of number parseInt items); [done|].
  intros [= <-]. by apply IH.
Qed.

Lemma forEach_parcel_throws (parcels : JSON.jsval) (e : exn) :
  forEach_parcel number parseInt parcels = Throw e -> e = TypeError.
Proof.
  destruct parcels; simpl; try congruence. apply coordinates_of_throws.
Qed.

(** X18.  The method stops the page loading unless a call is rejected
    with [undefined] or [null].  It ends normally or rejects with the
    [TypeError] of reading [err.message]; whenever it ends normally,
    [loading] is false; it ends normally when no call to the outside is
    rejected with [undefined] or [null]; when it rejects, the page shows
    no error and the server is never asked to close; and when the fetch
    of the contract address is rejected with [undefined] or [null], the
    method rejects after that one call and the page stays loading. *)
Theorem page_stops_loading_unless_rejected_with_nothing :
  let out := componentDidMount number parseInt E initial in
  (snd out = Ok tt \/ snd out = Throw TypeError)
  /\ (snd out = Ok tt -> loading (snd (fst out)) = false)
  /\ (never_nullish E -> snd out = Ok tt)
  /\ (snd out = Throw TypeError ->
      error (snd (fst out)) = NoError
      /\ List.filter is_close (fst (fst out)) = [])
  /\ (fetch_json E "/api/contract-address" = Throw Nullish ->
      out = ([Fetch "/api/contract-address"], initial, Throw TypeError)).
Proof.
  cbv zeta. split; [|split; [|split; [|split]]].
  - run_page; auto.
  - run_page.
  - intros (Hfetch & Hconnect & Haddress & Hupdate).
    run_page; exfalso;
      first [ by eapply Hfetch | by eapply Hconnect | by eapply Haddress
            | by eapply Hupdate
            | by match goal with
                 | H : prop _ _ = Throw Nullish |- _ => apply prop_throws in H
                 | H : forEach_parcel _ _ _ = Throw Nullish |- _ =>
                     apply forEach_parcel_throws in H
                 end ].
  - run_page.
  - intros Hfetch. run_page.
Qed.


(** X20.  The land data is updated at most once, and only after the
    contract address, the account, the scene data and the IPNS hash were
    all obtained: the call comes sixth, its coordinates are those of the
    parcels of the scene data and its data is [0,] followed by the IPNS
    hash. *)
Theorem update_comes_last_with_parcels_and_hash
    (coordinates : list (number * number)) (data : string) :
  UpdateManyLandData coordinates data
    ∈ fst (fst (componentDidMount number parseInt E initial)) ->
  List.filter is_update (fst (fst (componentDidMount number parseInt E initial)))
  = [UpdateManyLandData coordinates data]
  /\ exists answer contract account meta scene items hash,
      fetch_json E "/api/contract-address" = Ok answer
      /\ prop "address" answer = Ok contract
      /\ getAddress E = Ok account
      /\ fetch_json E "/api/get-scene-data" = Ok meta
      /\ prop "scene" meta = Ok scene
      /\ prop "parcels" scene = Ok (JSON.JArr items)
      /\ coordinates_of number parseInt items = Ok coordinates
      /\ fetch_json E "/api/get-ipns-hash" = Ok hash
      /\ data = "0," +:+ to_string hash
      /\ take 6 (fst (fst (componentDidMount number parseInt E initial)))
         = [Fetch "/api/contract-address"; Connect contract; GetAddress;
            Fetch "/api/get-scene-data"; Fetch "/api/get-ipns-hash";
            UpdateManyLandData coordinates data].
Proof.
  unfold componentDidMount, ethereum, getContractAddress, getSceneMetadata,
    getIpnsHash, closeServer, bind, try_catch, call, lift, setState, this_state, ret,
    forEach_parcel, message_of.
  repeat (case_match; simplify_eq/=);
    intros Hin;
    repeat (apply elem_of_cons in Hin as [Hin|Hin]; simplify_eq);
    try (by apply elem_of_nil in Hin);
    (split; [done|]); by eexists _, _, _, _, _, _, _.
Qed.

End LinkerFacts.

Section ParcelFacts.
Import Linker.
Variable number : Type.
Variable parseInt : string -> number.

Lemma split_comma_nonempty (s : string) : split_comma s <> [].
Proof.
  induction s as [|c s IH]; [done|]. simpl.
  destruct (Ascii.eqb c ","); [done|]. by destruct (split_comma s).
Qed.

Lemma split_comma_plain (x : string) :
  no_comma x = true -> split_comma x = [x].
Proof.
  unfold no_comma. induction x as [|c x IH]; [done|]. simpl.
  intros [Hc Hx]%andb_true_iff. apply negb_true_iff in Hc. rewrite Hc.
  by rewrite IH.
Qed.

Lemma split_comma_pair (x y : string) :
  no_comma x = true -> split_comma (x +:+ "," +:+ y) = x :: split_comma y.
Proof.
  unfold no_comma. induction x as [|c x IH]; [done|]. simpl.
  intros [Hc Hx]%andb_true_iff. apply negb_true_iff in Hc. rewrite Hc.
  by rewrite IH.
Qed.

(** X21.  Parcels written [x,y] give one coordinate each, in their order,
    with [parseInt] of what stands before and after the comma; a parcel
    without a comma gets [parseInt] of [undefined] as its [y]; and one
    parcel that is not a string fails them all. *)
Theorem coordinates_follow_parcels (pairs : list (string * string)) :
  Forall (fun p => no_comma (fst p) = true /\ no_comma (snd p) = true) pairs ->
  coordinates_of number parseInt
    ((fun p => JSON.JStr (fst p +:+ "," +:+ snd p)) <$> pairs)
  = Ok ((fun p => (parseInt (fst p), parseInt (snd p))) <$> pairs)
  /\ (forall x, no_comma x = true ->
       coordinates_of number parseInt [JSON.JStr x]
       = Ok [(parseInt x, parseInt "undefined")])
  /\ (forall before v after,
       (forall t, v <> JSON.JStr t) ->
       coordinates_of number parseInt
         ((JSON.JStr <$> before) ++ v :: after) = Throw TypeError).
Proof.
  intros Hpairs. split; [|split].
  - induction Hpairs as [|[x y] pairs [Hx Hy] _ IH]; [done|].
    rewrite !fmap_cons. cbn [coordinates_of]. rewrite IH. simpl in *.
    by rewrite split_comma_pair, split_comma_plain.
  - intros x Hx. simpl. by rewrite split_comma_plain.
  - intros before v after Hv. induction before as [|t before IH].
    + simpl. destruct v; try done. by destruct (Hv s).
    + rewrite fmap_cons. cbn [app coordinates_of]. by rewrite IH.
Qed.

End ParcelFacts.

Lemma update_comes_last_with_parcels_and_hash_witness :
  List.filter Linker.is_update
    (fst (fst (Linker.componentDidMount string (fun t => t) Runs.linker_env Linker.initial)))
  = [Linker.UpdateManyLandData [("1", "2"); ("-3", "4")] "0,Qm1"].
Proof.
  destruct (update_comes_last_with_parcels_and_hash string (fun t => t) Runs.linker_env
              [("1", "2"); ("-3", "4")] "0,Qm1") as [H _].
  - vm_compute. do 5 right. left.
  - exact H.
Defined.

Lemma coordinates_follow_parcels_witness :
  Linker.coordinates_of string (fun t => t) [JSON.JStr "1,2"; JSON.JStr "-3,4"]
  = Linker.Ok [("1", "2"); ("-3", "4")].
Proof.
  destruct (coordinates_follow_parcels string (fun t => t) [("1", "2"); ("-3", "4")])
    as [H _].
  - repeat constructor.
  - exact H.
Defined.
